(** * BLISS: ranges, k-mer key encoding and offset layout

    A shallow embedding of
    - [src/partition/range.hpp]  (module [Range]),
    - [src/index/indexing.cpp]   (module [Indexing]),
    with the properties the specification states about them.

    Machine integers are modelled as [Z] with every wrap-around and every
    implicit C++ conversion written out; [double] is the kernel's
    binary64 float. *)

From Corelib Require PrimFloat.
From Stdlib Require Import ZArith List Lia Bool.
Import ListNotations.
Local Open Scope Z_scope.

(** ** Fixed-width integers *)

(** Conversion of an integer value to an unsigned type of [w] bits. *)
Definition to_unsigned (w x : Z) : Z := x mod 2 ^ w.

Definition u8 (x : Z) : Z := to_unsigned 8 x.
Definition u16 (x : Z) : Z := to_unsigned 16 x.
Definition u64 (x : Z) : Z := to_unsigned 64 x.

(** Conversion of an integer value to a signed two's complement type of
    [w] bits. *)
Definition to_signed (w x : Z) : Z :=
  (x + 2 ^ (w - 1)) mod 2 ^ w - 2 ^ (w - 1).

Lemma u64_small x : 0 <= x < 2 ^ 64 -> u64 x = x.
Proof. intros H. unfold u64, to_unsigned. apply Z.mod_small. exact H. Qed.

Lemma u8_small x : 0 <= x < 256 -> u8 x = x.
Proof. intros H. unfold u8, to_unsigned. apply Z.mod_small. exact H. Qed.

Lemma u16_small x : 0 <= x < 65536 -> u16 x = x.
Proof. intros H. unfold u16, to_unsigned. apply Z.mod_small. exact H. Qed.

(** ** [bliss::partition::range<T>] for integral [T] *)

Module Range.

(** The integral type [T] (or [TT]) a range is instantiated at. *)
Record int_type := { bits : Z; is_signed : bool }.

Definition int8_t := {| bits := 8; is_signed := true |}.
Definition int16_t := {| bits := 16; is_signed := true |}.
Definition int32_t := {| bits := 32; is_signed := true |}.
Definition int64_t := {| bits := 64; is_signed := true |}.
Definition uint8_t := {| bits := 8; is_signed := false |}.
Definition uint16_t := {| bits := 16; is_signed := false |}.
Definition uint32_t := {| bits := 32; is_signed := false |}.
Definition uint64_t := {| bits := 64; is_signed := false |}.

(** [std::numeric_limits<T>::lowest()] and [max()]. *)
Definition lowest (T : int_type) : Z :=
  if is_signed T then - 2 ^ (bits T - 1) else 0.

Definition highest (T : int_type) : Z :=
  if is_signed T then 2 ^ (bits T - 1) - 1 else 2 ^ bits T - 1.

Definition representable (T : int_type) (x : Z) : Prop :=
  lowest T <= x <= highest T.

(** Conversion of a value to [T]. *)
Definition convert (T : int_type) (x : Z) : Z :=
  if is_signed T then to_signed (bits T) x else to_unsigned (bits T) x.

(** Conversion of a value to [size_t] (64 bits, unsigned). *)
Definition to_size_t (x : Z) : Z := to_unsigned 64 x.

(** Width of the type in which [T - T] is computed (integral promotion). *)
Definition promoted_bits (T : int_type) : Z := Z.max (bits T) 32.

Record range := mk_range { start : Z; end_ : Z; overlap : Z }.

(** What a call can end in: a value, one of the exceptions the header
    throws ([std::invalid_argument] at three places, [std::range_error] at
    one), or signed overflow, which C++ leaves undefined. *)
Inductive exn :=
| InvalidRange        (* invalid_argument: range constructor *)
| DisjointRangeError  (* invalid_argument: merge() with disjoint range *)
| InvalidPageSize     (* invalid_argument: align_to_page, page size 0 *)
| RangeUnderflow.     (* range_error: align_to_page near the minimum *)

Inductive outcome (A : Type) :=
| Return (a : A)
| Throw (e : exn)
| Undefined.
Arguments Return {A} a.
Arguments Throw {A} e.
Arguments Undefined {A}.

(** [range(const T&, const T&, const T&)] *)
Definition make (_start _end _overlap : Z) : outcome range :=
  if _end <? _start then Throw InvalidRange
  else if _overlap <? 0 then Throw InvalidRange
  else Return (mk_range _start _end _overlap).

(** [bool isDisjoint(const range<T>&) const] *)
Definition isDisjoint (this other : range) : bool :=
  (start this >? end_ other) || (end_ this <? start other).

(** [bool isAdjacent(const range<T>&) const] *)
Definition isAdjacent (this other : range) : bool :=
  (start this =? end_ other) || (end_ this =? start other).

(** [void merge(const range<T>&)], the updated [*this] returned. *)
Definition merge_in_place (this other : range) : outcome range :=
  if isDisjoint this other then Throw DisjointRangeError
  else
    let overlap' :=
      if end_ this <? end_ other then overlap other else overlap this in
    let start' := Z.min (start this) (start other) in
    let end' := Z.max (end_ this) (end_ other) in
    Return (mk_range start' end' overlap').

(** [static range<T> merge(const range<T>&, const range<T>&)]: the copy
    constructor does not validate. *)
Definition merge (first second : range) : outcome range :=
  let output := first in
  merge_in_place output second.

(** [void intersect(const range<T>&)], the updated [*this] returned. *)
Definition intersect_in_place (this other : range) : range :=
  let overlap' :=
    if end_ this >? end_ other then overlap other else overlap this in
  let start' := Z.max (start this) (start other) in
  let end' := Z.min (end_ this) (end_ other) in
  let start'' := Z.min start' end' in
  mk_range start'' end' overlap'.

(** [static range<T> intersect(const range<T>&, const range<T>&)] *)
Definition intersect (first second : range) : range :=
  let output := first in
  intersect_in_place output second.

(** [size_t size() const] for integral [T]. *)
Definition size (r : range) : Z :=
  to_unsigned 64 (to_size_t (end_ r) - to_size_t (start r)).

(** [static TT align_to_page(const TT& start, const size_t& page_size)].
    [start / page_size] and the product are computed in [size_t], because
    [page_size] is a [size_t]: [start] is converted to unsigned first. *)
Definition align_to_page (T : int_type) (start page_size : Z) : outcome Z :=
  if page_size =? 0 then Throw InvalidPageSize
  else
    let block_start :=
      convert T (to_unsigned 64 ((to_size_t start / page_size) * page_size)) in
    if block_start >? start then
      let d := block_start - lowest T in
      if is_signed T && (32 <=? bits T) && (2 ^ (promoted_bits T - 1) <=? d)
      then Undefined
      else if to_size_t d <? page_size then Throw RangeUnderflow
      else Return (convert T (to_unsigned 64 (to_size_t block_start - page_size)))
    else Return block_start.

(** The specification's [alignToPageStart]: the largest multiple of the
    page size that does not exceed [start]. *)
Definition largest_multiple_below (start page_size : Z) : Z :=
  page_size * (start / page_size).

(** *** Properties *)

(** C5. [merge a b] throws [DisjointRangeError] exactly when
    [a.start > b.end] or [a.end < b.start]; otherwise it returns the range
    from [min] of the starts to [max] of the ends whose overlap is that of
    the input with the larger end ([a]'s on a tie). For ranges that satisfy
    the constructor's invariant the throwing pairs are never adjacent. *)
Theorem merge_spec (a b : range) :
  (merge a b = Throw DisjointRangeError <->
   (start a > end_ b \/ end_ a < start b)) /\
  (forall e, merge a b = Throw e -> e = DisjointRangeError) /\
  merge a b <> Undefined /\
  (~ (start a > end_ b \/ end_ a < start b) ->
   exists r, merge a b = Return r /\
     start r = Z.min (start a) (start b) /\
     end_ r = Z.max (end_ a) (end_ b) /\
     (end_ a < end_ b -> overlap r = overlap b) /\
     (end_ b <= end_ a -> overlap r = overlap a)) /\
  (start a <= end_ a -> start b <= end_ b ->
   isDisjoint a b = true -> isAdjacent a b = false).
Proof.
  assert (D : isDisjoint a b = true <-> (start a > end_ b \/ end_ a < start b)).
  { unfold isDisjoint. rewrite orb_true_iff, Z.gtb_gt, Z.ltb_lt. lia. }
  assert (A : start a <= end_ a -> start b <= end_ b ->
              isDisjoint a b = true -> isAdjacent a b = false).
  { intros Ha Hb Hd. apply D in Hd. unfold isAdjacent.
    apply orb_false_iff. rewrite !Z.eqb_neq. lia. }
  unfold merge, merge_in_place.
  destruct (isDisjoint a b) eqn:E.
  - assert (Hd : start a > end_ b \/ end_ a < start b) by (apply D; reflexivity).
    split; [tauto|]. split; [congruence|]. split; [congruence|].
    split; [tauto|exact A].
  - assert (Hd : ~ (start a > end_ b \/ end_ a < start b)).
    { intros H. apply D in H. discriminate. }
    split; [split; [congruence|tauto]|].
    split; [congruence|]. split; [congruence|].
    split; [|exact A].
    intros _. eexists. split; [reflexivity|]. cbn.
    destruct (Z.ltb_spec (end_ a) (end_ b)); repeat split; intros; lia || reflexivity.
Qed.


(** C10. The overlap of [intersect a b] is the one of the input with the
    smaller end: [b.overlap] when [a.end > b.end], [a.overlap] otherwise
    (also on a tie). *)
Theorem intersect_overlap (a b : range) :
  overlap (intersect a b) =
    if end_ b <? end_ a then overlap b else overlap a.
Proof.
  unfold intersect, intersect_in_place; cbn.
  rewrite Z.gtb_ltb. reflexivity.
Qed.

(** [align_to_page] rejects exactly the zero page size with
    [InvalidPageSize]. *)
Lemma align_to_page_invalid_page_size (T : int_type) (s p : Z) :
  align_to_page T s p = Throw InvalidPageSize <-> p = 0.
Proof.
  unfold align_to_page.
  destruct (Z.eqb_spec p 0) as [->|Hp]; [tauto|].
  split; [|contradiction].
  repeat match goal with
         | |- context [if ?c then _ else _] => destruct c
         end; discriminate.
Qed.

(** For a start that is not negative the code returns the largest multiple
    of the page size that does not exceed it. *)
Lemma align_to_page_nonneg (T : int_type) (s p : Z) :
  0 < bits T <= 64 -> representable T s -> 0 <= s -> 0 < p ->
  align_to_page T s p = Return (largest_multiple_below s p) /\
  largest_multiple_below s p <= s /\
  largest_multiple_below s p mod p = 0 /\
  s - largest_multiple_below s p < p.
Proof.
  intros Hb [_ Hhi] Hs Hp.
  unfold largest_multiple_below.
  pose proof (Z.mul_div_le s p Hp) as Hle.
  pose proof (Z.mod_pos_bound s p Hp) as Hm.
  pose proof (Z.div_mod s p ltac:(lia)) as Hdm.
  assert (Hq : 0 <= p * (s / p)) by (apply Z.mul_nonneg_nonneg; [lia|apply Z.div_pos; lia]).
  assert (Hpow : 2 ^ bits T = 2 * 2 ^ (bits T - 1)).
  { replace (bits T) with (Z.succ (bits T - 1)) at 1 by lia.
    apply Z.pow_succ_r. lia. }
  assert (Hpos : 0 < 2 ^ (bits T - 1)) by (apply Z.pow_pos_nonneg; lia).
  assert (H64 : 2 ^ bits T <= 2 ^ 64) by (apply Z.pow_le_mono_r; lia).
  assert (Hs64 : s < 2 ^ 64).
  { unfold highest in Hhi. destruct (is_signed T); lia. }
  split; [|split; [lia|split; [|lia]]].
  - unfold align_to_page.
    destruct (Z.eqb_spec p 0); [lia|].
    unfold to_size_t, to_unsigned.
    rewrite (Z.mod_small s) by lia.
    rewrite (Z.mul_comm (s / p) p).
    rewrite (Z.mod_small (p * (s / p))) by lia.
    assert (Hc : convert T (p * (s / p)) = p * (s / p)).
    { unfold convert, to_signed, to_unsigned, highest in *.
      destruct (is_signed T).
      - rewrite Z.mod_small by lia. lia.
      - apply Z.mod_small. lia. }
    rewrite Hc.
    destruct (Z.gtb_spec (p * (s / p)) s); [lia|reflexivity].
  - rewrite Z.mul_comm. apply Z.mod_mul. lia.
Qed.

Lemma align_to_page_nonneg_witness :
  align_to_page uint64_t 10 4 = Return (largest_multiple_below 10 4) /\
  largest_multiple_below 10 4 <= 10 /\
  largest_multiple_below 10 4 mod 4 = 0 /\
  10 - largest_multiple_below 10 4 < 4.
Proof.
  apply (align_to_page_nonneg uint64_t 10 4);
    unfold representable; cbn; lia.
Defined.

(** C7, at a negative start. For [TT = int64_t], [start = -5] and
    [page_size = 3] the quotient is taken after [start] has been converted
    to [size_t]; the function returns [-7], which is not a multiple of 3,
    where the largest multiple of 3 not exceeding [-5] is [-6]. For
    [TT = int8_t], [start = -128] and [page_size = 3] the aligned value
    [-129] lies below the minimum; the function returns [123] and throws
    nothing. *)
Theorem align_to_page_negative_start :
  align_to_page int64_t (-5) 3 = Return (-7) /\
  (-7) mod 3 <> 0 /\
  largest_multiple_below (-5) 3 = -6 /\
  align_to_page int64_t (-5) 3 <> Return (largest_multiple_below (-5) 3) /\
  largest_multiple_below (-128) 3 = -129 /\
  align_to_page int8_t (-128) 3 = Return 123.
Proof.
  assert (E : align_to_page int64_t (-5) 3 = Return (-7)) by (vm_compute; reflexivity).
  rewrite E. repeat split; try (vm_compute; congruence).
Qed.

(** *** The remaining operations of [range<T>] *)

(** [static bool equal(const range<T>&, const range<T>&)], which the member
    [equal] and [operator ==] call. *)
Definition equal (self other : range) : bool :=
  (start self =? start other) && (end_ self =? end_ other).

(** The constructor's invariant, and fields that are values of [T]. *)
Definition valid (r : range) : Prop := start r <= end_ r /\ 0 <= overlap r.

Definition fits (T : int_type) (r : range) : Prop :=
  representable T (start r) /\ representable T (end_ r) /\
  representable T (overlap r).

Definition representableb (T : int_type) (x : Z) : bool :=
  (lowest T <=? x) && (x <=? highest T).

(** [x += y] and [x -= y] on values of [T]: computed in the promoted
    type, where a signed overflow is undefined, and converted back. *)
Definition arith_in (T : int_type) (exact : Z) : outcome Z :=
  if is_signed T && (32 <=? bits T) then
    if representableb T exact then Return exact else Undefined
  else Return (convert T exact).

Definition and_then {A B} (m : outcome A) (f : A -> outcome B) : outcome B :=
  match m with
  | Return a => f a
  | Throw e => Throw e
  | Undefined => Undefined
  end.

(** [void shiftRight(const T& amount)], the updated [*this] returned. *)
Definition shiftRight_in_place (T : int_type) (this : range) (amount : Z)
  : outcome range :=
  and_then (arith_in T (start this + amount)) (fun start' =>
  and_then (arith_in T (end_ this + amount)) (fun end' =>
  Return (mk_range start' end' (overlap this)))).

(** [static range<T> shiftRight(const range<T>&, const T&)], also
    [operator +] and [operator +=]. *)
Definition shiftRight (T : int_type) (r : range) (amount : Z) : outcome range :=
  let output := r in shiftRight_in_place T output amount.

(** [void shiftLeft(const T& amount)], the updated [*this] returned. *)
Definition shiftLeft_in_place (T : int_type) (this : range) (amount : Z)
  : outcome range :=
  and_then (arith_in T (start this - amount)) (fun start' =>
  and_then (arith_in T (end_ this - amount)) (fun end' =>
  Return (mk_range start' end' (overlap this)))).

(** [static range<T> shiftLeft(const range<T>&, const T&)], also
    [operator -] and [operator -=]. *)
Definition shiftLeft (T : int_type) (r : range) (amount : Z) : outcome range :=
  let output := r in shiftLeft_in_place T output amount.

(** [bool contains(const range<T>&) const] *)
Definition contains (this other : range) : bool :=
  (size other >? 0) && (start other >=? start this) && (end_ other <=? end_ this).

(** [bool overlaps(const range<T>&) const] *)
Definition overlaps (this other : range) : bool :=
  size (intersect this other) >? 0.

(** [static TT align_to_page(const range<TT>&, const size_t&)] *)
Definition align_to_page_range (T : int_type) (r : range) (page_size : Z)
  : outcome Z :=
  align_to_page T (start r) page_size.

(** [static bool is_page_aligned(const TT& start, const size_t& page_size)]:
    the remainder is taken in [size_t]; a zero page size divides by zero. *)
Definition is_page_aligned (T : int_type) (start page_size : Z) : outcome bool :=
  if page_size =? 0 then Undefined
  else Return (to_size_t start mod page_size =? 0).

(** [static bool is_page_aligned(const range<TT>&, const size_t&)] *)
Definition is_page_aligned_range (T : int_type) (r : range) (page_size : Z)
  : outcome bool :=
  is_page_aligned T (start r) page_size.

(** *** Facts on the integral types *)

Lemma half_range (T : int_type) :
  0 < bits T -> 2 ^ bits T = 2 * 2 ^ (bits T - 1) /\ 0 < 2 ^ (bits T - 1).
Proof.
  intros Hb. split.
  - replace (bits T) with (Z.succ (bits T - 1)) at 1 by lia.
    apply Z.pow_succ_r. lia.
  - apply Z.pow_pos_nonneg; lia.
Qed.

Lemma representable_width (T : int_type) (x y : Z) :
  0 < bits T <= 64 -> representable T x -> representable T y ->
  x - y < 2 ^ 64.
Proof.
  intros Hb [Hx1 Hx2] [Hy1 Hy2].
  destruct (half_range T ltac:(lia)) as [Hp Hh].
  assert (H64 : 2 ^ bits T <= 2 ^ 64) by (apply Z.pow_le_mono_r; lia).
  unfold lowest, highest in *. destruct (is_signed T); lia.
Qed.

Lemma convert_representable (T : int_type) (x : Z) :
  0 < bits T -> representable T x -> convert T x = x.
Proof.
  intros Hb [H1 H2]. destruct (half_range T Hb) as [Hp Hh].
  unfold convert, to_signed, to_unsigned, lowest, highest in *.
  destruct (is_signed T).
  - rewrite Z.mod_small by lia. lia.
  - apply Z.mod_small. lia.
Qed.

Lemma convert_add_l (T : int_type) (x y : Z) :
  0 < bits T -> convert T (convert T x + y) = convert T (x + y).
Proof.
  intros Hb. unfold convert, to_signed, to_unsigned.
  destruct (is_signed T).
  - f_equal.
    replace ((x + 2 ^ (bits T - 1)) mod 2 ^ bits T - 2 ^ (bits T - 1) + y
             + 2 ^ (bits T - 1))
      with ((x + 2 ^ (bits T - 1)) mod 2 ^ bits T + y) by ring.
    rewrite Zplus_mod_idemp_l. f_equal. ring.
  - apply Zplus_mod_idemp_l.
Qed.

Lemma representableb_spec (T : int_type) (x : Z) :
  representableb T x = true <-> representable T x.
Proof.
  unfold representableb, representable.
  rewrite andb_true_iff, !Z.leb_le. tauto.
Qed.

(** *** Size and the constructor's invariant *)

Lemma size_difference (T : int_type) (r : range) :
  0 < bits T <= 64 -> fits T r -> start r <= end_ r ->
  size r = end_ r - start r.
Proof.
  intros Hb (Hs & He & _) Hle.
  pose proof (representable_width T (end_ r) (start r) Hb He Hs) as Hw.
  unfold size, to_size_t, to_unsigned.
  rewrite <- Zminus_mod. apply Z.mod_small. lia.
Qed.

(** The size of a range whose start does not exceed its end is
    [end - start], for every integral type of at most 64 bits; it is 0
    exactly for [start = end]. *)
Theorem size_valid (T : int_type) (r : range) :
  0 < bits T <= 64 -> fits T r -> start r <= end_ r ->
  size r = end_ r - start r /\ (size r = 0 <-> start r = end_ r).
Proof.
  intros Hb F Hle. rewrite (size_difference T r Hb F Hle).
  split; [reflexivity|lia].
Qed.

Lemma size_valid_witness :
  size (mk_range (-3) 4 1) = 4 - -3 /\
  (size (mk_range (-3) 4 1) = 0 <-> -3 = 4).
Proof.
  apply (size_valid int8_t (mk_range (-3) 4 1));
    unfold fits, representable; cbn; lia.
Defined.

(** [merge] and [intersect] keep the constructor's invariant: what they
    return for ranges the constructor accepts, the constructor accepts
    again, and [intersect] repairs the order of the ends even for inputs
    that break it. *)
Theorem merge_intersect_keep_invariant (a b : range) :
  valid a -> valid b ->
  (forall r, merge a b = Return r ->
     make (start r) (end_ r) (overlap r) = Return r) /\
  make (start (intersect a b)) (end_ (intersect a b)) (overlap (intersect a b))
    = Return (intersect a b).
Proof.
  intros [Ha Hoa] [Hb Hob].
  assert (M : forall r, start r <= end_ r -> 0 <= overlap r ->
            make (start r) (end_ r) (overlap r) = Return r).
  { intros [s e o] H1 H2. cbn in *. unfold make.
    destruct (Z.ltb_spec e s); [lia|].
    destruct (Z.ltb_spec o 0); [lia|reflexivity]. }
  split.
  - intros r Hr. unfold merge, merge_in_place in Hr.
    destruct (isDisjoint a b); [discriminate|].
    injection Hr as <-. apply M; cbn; [lia|].
    destruct (end_ a <? end_ b); assumption.
  - apply M.
    + unfold intersect, intersect_in_place; cbn. lia.
    + unfold intersect, intersect_in_place; cbn.
      destruct (end_ a >? end_ b); assumption.
Qed.

Lemma merge_intersect_keep_invariant_witness :
  (forall r, merge (mk_range 0 5 1) (mk_range 3 9 2) = Return r ->
     make (start r) (end_ r) (overlap r) = Return r) /\
  make (start (intersect (mk_range 0 5 1) (mk_range 3 9 2)))
       (end_ (intersect (mk_range 0 5 1) (mk_range 3 9 2)))
       (overlap (intersect (mk_range 0 5 1) (mk_range 3 9 2)))
    = Return (intersect (mk_range 0 5 1) (mk_range 3 9 2)).
Proof.
  apply (merge_intersect_keep_invariant (mk_range 0 5 1) (mk_range 3 9 2));
    unfold valid; cbn; lia.
Defined.

(** *** How the predicates relate *)

(** [isDisjoint], [isAdjacent] and [overlaps] do not depend on the order
    of their arguments, as the header says of each; [intersect] does only
    up to [equal]: on equal ends the overlap kept is that of the first
    argument. *)
Theorem predicates_commute (a b : range) :
  isDisjoint a b = isDisjoint b a /\
  isAdjacent a b = isAdjacent b a /\
  overlaps a b = overlaps b a /\
  equal (intersect a b) (intersect b a) = true /\
  (end_ a = end_ b ->
   overlap (intersect a b) = overlap a /\ overlap (intersect b a) = overlap b).
Proof.
  assert (S : start (intersect a b) = start (intersect b a) /\
              end_ (intersect a b) = end_ (intersect b a)).
  { unfold intersect, intersect_in_place; cbn. lia. }
  destruct S as [S1 S2].
  split; [|split; [|split; [|split]]].
  - unfold isDisjoint. rewrite !Z.gtb_ltb. apply orb_comm.
  - unfold isAdjacent.
    rewrite (Z.eqb_sym (start a)), (Z.eqb_sym (end_ a)). apply orb_comm.
  - unfold overlaps, size. rewrite S1, S2. reflexivity.
  - unfold equal. rewrite S1, S2, !Z.eqb_refl. reflexivity.
  - intros E. unfold intersect, intersect_in_place; cbn.
    rewrite E, !Z.gtb_ltb, Z.ltb_irrefl. split; reflexivity.
Qed.

Lemma overlaps_max_min (T : int_type) (a b : range) :
  0 < bits T <= 64 -> fits T a -> fits T b ->
  overlaps a b = true <->
  Z.max (start a) (start b) < Z.min (end_ a) (end_ b).
Proof.
  intros Hb Fa Fb.
  assert (Fi : fits T (intersect a b)).
  { destruct Fa as (A1 & A2 & A3), Fb as (B1 & B2 & B3).
    unfold fits, intersect, intersect_in_place, representable in *; cbn.
    repeat split; try lia; destruct (end_ a >? end_ b); lia. }
  assert (Hs : size (intersect a b) =
               end_ (intersect a b) - start (intersect a b)).
  { apply (size_difference T); [assumption|assumption|].
    unfold intersect, intersect_in_place; cbn. lia. }
  unfold overlaps. rewrite Hs, Z.gtb_ltb, Z.ltb_lt.
  unfold intersect, intersect_in_place; cbn. lia.
Qed.

(** For ranges of an integral type that satisfy the invariant, two ranges
    overlap exactly when the later start lies before the earlier end (so
    a range of size 0 overlaps nothing); overlapping ranges are neither
    disjoint nor adjacent, and adjacent ranges do not overlap. *)
Theorem overlaps_iff (T : int_type) (a b : range) :
  0 < bits T <= 64 -> fits T a -> fits T b -> valid a -> valid b ->
  (overlaps a b = true <->
   Z.max (start a) (start b) < Z.min (end_ a) (end_ b)) /\
  (overlaps a b = true -> isDisjoint a b = false /\ isAdjacent a b = false) /\
  (isAdjacent a b = true -> overlaps a b = false).
Proof.
  intros Hb Fa Fb [Va _] [Vb _].
  pose proof (overlaps_max_min T a b Hb Fa Fb) as O.
  split; [exact O|]. split.
  - intros H. apply O in H. unfold isDisjoint, isAdjacent.
    rewrite !orb_false_iff, Z.gtb_ltb, !Z.ltb_ge, !Z.eqb_neq. lia.
  - intros H. unfold isAdjacent in H.
    apply orb_true_iff in H. rewrite !Z.eqb_eq in H.
    apply not_true_is_false. intros E. apply O in E. lia.
Qed.

Lemma overlaps_iff_witness :
  (overlaps (mk_range 0 5 1) (mk_range 3 9 2) = true <->
   Z.max (start (mk_range 0 5 1)) (start (mk_range 3 9 2)) <
   Z.min (end_ (mk_range 0 5 1)) (end_ (mk_range 3 9 2))) /\
  (overlaps (mk_range 0 5 1) (mk_range 3 9 2) = true ->
   isDisjoint (mk_range 0 5 1) (mk_range 3 9 2) = false /\
   isAdjacent (mk_range 0 5 1) (mk_range 3 9 2) = false) /\
  (isAdjacent (mk_range 0 5 1) (mk_range 3 9 2) = true ->
   overlaps (mk_range 0 5 1) (mk_range 3 9 2) = false).
Proof.
  apply (overlaps_iff int32_t (mk_range 0 5 1) (mk_range 3 9 2));
    unfold fits, valid, representable; cbn; lia.
Defined.

(** Adjacent ranges can always be merged, and the merged range is as long
    as the two together. *)
Theorem merge_adjacent (T : int_type) (a b : range) :
  0 < bits T <= 64 -> fits T a -> fits T b -> valid a -> valid b ->
  isAdjacent a b = true ->
  exists r, merge a b = Return r /\ size r = size a + size b.
Proof.
  intros Hb Fa Fb [Va Oa] [Vb Ob] H.
  unfold isAdjacent in H. apply orb_true_iff in H. rewrite !Z.eqb_eq in H.
  unfold merge, merge_in_place.
  assert (D : isDisjoint a b = false).
  { unfold isDisjoint. rewrite orb_false_iff, Z.gtb_ltb, !Z.ltb_ge. lia. }
  rewrite D. eexists. split; [reflexivity|].
  rewrite (size_difference T a), (size_difference T b) by assumption.
  rewrite (size_difference T); cbn; try lia; try assumption.
  destruct Fa as (A1 & A2 & A3), Fb as (B1 & B2 & B3).
  unfold fits, representable in *; cbn.
  repeat split; try lia; destruct (end_ a <? end_ b); lia.
Qed.

Lemma merge_adjacent_witness :
  exists r, merge (mk_range 0 5 1) (mk_range 5 9 2) = Return r /\
    size r = size (mk_range 0 5 1) + size (mk_range 5 9 2).
Proof.
  apply (merge_adjacent uint16_t (mk_range 0 5 1) (mk_range 5 9 2));
    unfold fits, valid, representable; cbn; lia || reflexivity.
Defined.

(** [contains] never holds of a range of size 0, it is transitive, two
    ranges that contain each other are [equal], and a range contains
    itself exactly when its size is positive. *)
Theorem contains_order (a b c : range) :
  (size b = 0 -> contains a b = false) /\
  (contains a b = true -> contains b c = true -> contains a c = true) /\
  (contains a b = true -> contains b a = true -> equal a b = true) /\
  (contains a a = true <-> 0 < size a).
Proof.
  unfold contains, equal.
  split; [|split; [|split]].
  - intros ->. reflexivity.
  - rewrite !andb_true_iff, !Z.gtb_ltb, !Z.ltb_lt, !Z.geb_le, !Z.leb_le. lia.
  - rewrite !andb_true_iff, !Z.gtb_ltb, !Z.ltb_lt, !Z.geb_le, !Z.leb_le,
      !Z.eqb_eq. lia.
  - rewrite !andb_true_iff, !Z.gtb_ltb, !Z.ltb_lt, !Z.geb_le, !Z.leb_le. lia.
Qed.

(** A range that contains another overlaps it, intersects with it to that
    range and merges with it to itself (up to [equal]). *)
Theorem contains_intersect_merge (T : int_type) (a b : range) :
  0 < bits T <= 64 -> fits T a -> fits T b -> valid a -> valid b ->
  contains a b = true ->
  overlaps a b = true /\
  equal (intersect a b) b = true /\
  exists r, merge a b = Return r /\ equal r a = true.
Proof.
  intros Hb Fa Fb Va Vb H.
  pose proof (size_difference T b Hb Fb (proj1 Vb)) as Sb.
  pose proof (overlaps_max_min T a b Hb Fa Fb) as O.
  destruct Va as [Va _], Vb as [Vb _].
  unfold contains in H.
  rewrite !andb_true_iff, Z.gtb_ltb, Z.ltb_lt, Z.geb_le, Z.leb_le in H.
  split; [apply O; lia|]. split.
  - unfold equal, intersect, intersect_in_place; cbn.
    rewrite andb_true_iff, !Z.eqb_eq. lia.
  - unfold merge, merge_in_place.
    assert (D : isDisjoint a b = false).
    { unfold isDisjoint. rewrite orb_false_iff, Z.gtb_ltb, !Z.ltb_ge. lia. }
    rewrite D. eexists. split; [reflexivity|].
    unfold equal; cbn. rewrite andb_true_iff, !Z.eqb_eq. lia.
Qed.

Lemma contains_intersect_merge_witness :
  overlaps (mk_range 0 9 1) (mk_range 3 5 2) = true /\
  equal (intersect (mk_range 0 9 1) (mk_range 3 5 2)) (mk_range 3 5 2) = true /\
  exists r, merge (mk_range 0 9 1) (mk_range 3 5 2) = Return r /\
    equal r (mk_range 0 9 1) = true.
Proof.
  apply (contains_intersect_merge int64_t (mk_range 0 9 1) (mk_range 3 5 2));
    unfold fits, valid, representable; cbn; lia || reflexivity.
Defined.

(** *** Shifting *)

Lemma arith_in_representable (T : int_type) (x : Z) :
  0 < bits T -> representable T x -> arith_in T x = Return x.
Proof.
  intros Hb H. unfold arith_in.
  destruct (is_signed T && (32 <=? bits T)).
  - apply representableb_spec in H. rewrite H. reflexivity.
  - rewrite convert_representable by assumption. reflexivity.
Qed.

(** When both ends stay values of the type, [shiftRight] moves them by
    the amount and leaves overlap and size as they were. *)
Theorem shiftRight_translates (T : int_type) (r : range) (amount : Z) :
  0 < bits T ->
  representable T (start r + amount) -> representable T (end_ r + amount) ->
  shiftRight T r amount =
    Return (mk_range (start r + amount) (end_ r + amount) (overlap r)) /\
  size (mk_range (start r + amount) (end_ r + amount) (overlap r)) = size r.
Proof.
  intros Hb Hs He. split.
  - unfold shiftRight, shiftRight_in_place.
    rewrite !arith_in_representable by assumption. reflexivity.
  - unfold size, to_size_t, to_unsigned; cbn.
    rewrite <- !Zminus_mod. f_equal. ring.
Qed.

Lemma shiftRight_translates_witness :
  shiftRight int8_t (mk_range (-3) 4 1) 100 =
    Return (mk_range (-3 + 100) (4 + 100) 1) /\
  size (mk_range (-3 + 100) (4 + 100) 1) = size (mk_range (-3) 4 1).
Proof.
  apply (shiftRight_translates int8_t (mk_range (-3) 4 1) 100);
    unfold representable; cbn; lia.
Defined.

(** Whatever [shiftRight] returns, [shiftLeft] by the same amount brings
    back the range it was given: also through a wrap-around of an
    unsigned or narrow type. *)
Theorem shiftLeft_shiftRight (T : int_type) (r r' : range) (amount : Z) :
  0 < bits T -> fits T r ->
  shiftRight T r amount = Return r' ->
  shiftLeft T r' amount = Return r.
Proof.
  intros Hb (Fs & Fe & _) H. destruct r as [s e o]; cbn in *.
  unfold shiftRight, shiftRight_in_place, shiftLeft, shiftLeft_in_place,
    arith_in in *; cbn in *.
  destruct (is_signed T && (32 <=? bits T)) eqn:W.
  - destruct (representableb T (s + amount)); [|discriminate].
    destruct (representableb T (e + amount)); [|discriminate].
    cbn in H. injection H as <-. cbn.
    replace (s + amount - amount) with s by ring.
    replace (e + amount - amount) with e by ring.
    apply representableb_spec in Fs, Fe. rewrite Fs, Fe. reflexivity.
  - cbn in H. injection H as <-. cbn.
    unfold Z.sub. rewrite !convert_add_l by assumption.
    replace (s + amount + - amount) with s by ring.
    replace (e + amount + - amount) with e by ring.
    rewrite !convert_representable by assumption. reflexivity.
Qed.

Lemma shiftLeft_shiftRight_witness :
  shiftLeft uint8_t (mk_range 2 7 1) 10 = Return (mk_range 248 253 1).
Proof.
  apply (shiftLeft_shiftRight uint8_t (mk_range 248 253 1) (mk_range 2 7 1) 10).
  - reflexivity.
  - unfold fits, representable; cbn; lia.
  - reflexivity.
Defined.

(** *** Page alignment *)

Lemma convert_mod64 (T : int_type) (x : Z) :
  0 < bits T <= 64 -> convert T (to_unsigned 64 x) = convert T x.
Proof.
  intros Hb.
  assert (D : (2 ^ bits T | 2 ^ 64)).
  { exists (2 ^ (64 - bits T)). rewrite <- Z.pow_add_r by lia.
    f_equal. lia. }
  unfold convert, to_signed, to_unsigned.
  destruct (is_signed T).
  - f_equal. rewrite <- (Z.mod_mod_divide (x + 2 ^ (bits T - 1)) _ _ D).
    rewrite <- (Z.mod_mod_divide (x mod 2 ^ 64 + 2 ^ (bits T - 1)) _ _ D).
    rewrite Zplus_mod_idemp_l. reflexivity.
  - apply Z.mod_mod_divide. exact D.
Qed.

(** Where the quotient taken in [size_t] agrees with the floor of
    [start / page_size] modulo [2 ^ 64], the code returns the floor
    multiple: this is so for a start that is not negative and for a page
    size that is a power of two. *)
Lemma align_to_page_floor (T : int_type) (s p : Z) :
  0 < bits T <= 64 -> representable T s -> 0 < p ->
  (0 <= s \/ exists k, 0 <= k <= bits T - 1 /\ p = 2 ^ k) ->
  align_to_page T s p = Return (p * (s / p)).
Proof.
  intros Hb [Hlo Hhi] Hp Hcase.
  destruct (half_range T ltac:(lia)) as [Hpow Hh].
  assert (H64 : 2 ^ bits T <= 2 ^ 64) by (apply Z.pow_le_mono_r; lia).
  pose proof (Z.mul_div_le s p Hp) as Hle.
  assert (Hrep : representable T (p * (s / p))).
  { split; [|lia].
    destruct Hcase as [Hs|(k & Hk & ->)].
    - assert (0 <= p * (s / p))
        by (apply Z.mul_nonneg_nonneg; [lia|apply Z.div_pos; lia]).
      unfold lowest. destruct (is_signed T); lia.
    - unfold lowest in *. destruct (is_signed T).
      + assert (E : 2 ^ (bits T - 1) = 2 ^ (bits T - 1 - k) * 2 ^ k).
        { rewrite <- Z.pow_add_r by lia. f_equal. lia. }
        assert (Hq : - 2 ^ (bits T - 1 - k) <= s / 2 ^ k).
        { apply Z.div_le_lower_bound; [lia|]. rewrite E in Hlo. lia. }
        rewrite E. nia.
      + assert (0 <= 2 ^ k * (s / 2 ^ k))
          by (apply Z.mul_nonneg_nonneg; [lia|apply Z.div_pos; lia]).
        lia. }
  assert (Hq : exists c, to_unsigned 64 ((to_size_t s / p) * p)
                         = to_unsigned 64 (p * (s / p) + c * 2 ^ 64)).
  { unfold to_size_t, to_unsigned.
    destruct Hcase as [Hs|(k & Hk & ->)].
    - exists 0. rewrite (Z.mod_small s).
      + f_equal. ring.
      + unfold highest in Hhi. destruct (is_signed T); lia.
    - assert (E : 2 ^ 64 = 2 ^ (64 - k) * 2 ^ k).
      { rewrite <- Z.pow_add_r by lia. f_equal. lia. }
      exists (- (s / 2 ^ 64)).
      rewrite (Z.mod_eq s (2 ^ 64)) by lia.
      generalize (s / 2 ^ 64). intros q.
      assert (Es : s - 2 ^ 64 * q = s + (- q * 2 ^ (64 - k)) * 2 ^ k)
        by (rewrite E; ring).
      rewrite Es, Z.div_add by lia. f_equal. rewrite E. ring. }
  destruct Hq as (c & Hq).
  assert (Hq' : to_unsigned 64 ((to_size_t s / p) * p)
                = to_unsigned 64 (p * (s / p))).
  { rewrite Hq. unfold to_unsigned. apply Z_mod_plus_full. }
  unfold align_to_page.
  destruct (Z.eqb_spec p 0); [lia|].
  rewrite Hq', convert_mod64, convert_representable by (assumption || lia).
  destruct (Z.gtb_spec (p * (s / p)) s); [lia|reflexivity].
Qed.

(** For a page size that is a power of two, [align_to_page] returns the
    largest multiple of the page size that does not exceed the start, for
    a negative start as well. *)
Theorem align_to_page_power_of_two (T : int_type) (s k : Z) :
  0 < bits T <= 64 -> representable T s -> 0 <= k <= bits T - 1 ->
  align_to_page T s (2 ^ k) = Return (largest_multiple_below s (2 ^ k)) /\
  largest_multiple_below s (2 ^ k) <= s /\
  largest_multiple_below s (2 ^ k) mod 2 ^ k = 0 /\
  s - largest_multiple_below s (2 ^ k) < 2 ^ k.
Proof.
  intros Hb Hs Hk.
  assert (Hp : 0 < 2 ^ k) by (apply Z.pow_pos_nonneg; lia).
  unfold largest_multiple_below.
  split; [apply align_to_page_floor; try assumption; right; exists k; auto|].
  pose proof (Z.mul_div_le s (2 ^ k) Hp).
  pose proof (Z.mod_pos_bound s (2 ^ k) Hp).
  pose proof (Z.div_mod s (2 ^ k) ltac:(lia)).
  split; [lia|]. split; [|lia].
  rewrite Z.mul_comm. apply Z.mod_mul. lia.
Qed.

Lemma align_to_page_power_of_two_witness :
  align_to_page int64_t (-5) (2 ^ 2) = Return (largest_multiple_below (-5) (2 ^ 2)) /\
  largest_multiple_below (-5) (2 ^ 2) <= -5 /\
  largest_multiple_below (-5) (2 ^ 2) mod 2 ^ 2 = 0 /\
  -5 - largest_multiple_below (-5) (2 ^ 2) < 2 ^ 2.
Proof.
  apply (align_to_page_power_of_two int64_t (-5) 2);
    unfold representable; cbn; lia.
Defined.

(** For a start that is not negative, the aligned start passes
    [is_page_aligned], aligning it again changes nothing, and a start that
    is page aligned already is returned as it is. *)
Theorem align_to_page_aligned (T : int_type) (s p : Z) :
  0 < bits T <= 64 -> representable T s -> 0 <= s -> 0 < p ->
  exists b,
    align_to_page T s p = Return b /\
    is_page_aligned T b p = Return true /\
    align_to_page T b p = Return b /\
    (is_page_aligned T s p = Return true -> b = s).
Proof.
  intros Hb Hs H0 Hp. exists (p * (s / p)).
  pose proof (Z.mul_div_le s p Hp) as Hle.
  assert (Hb0 : 0 <= p * (s / p))
    by (apply Z.mul_nonneg_nonneg; [lia|apply Z.div_pos; lia]).
  assert (Hrep : representable T (p * (s / p))).
  { destruct Hs as [Hlo Hhi]. split; [|lia].
    unfold lowest. destruct (is_signed T); [|lia].
    destruct (half_range T ltac:(lia)). lia. }
  assert (H64 : forall x, 0 <= x -> representable T x -> to_size_t x = x).
  { intros x Hx [_ Hhi]. unfold to_size_t, to_unsigned. apply Z.mod_small.
    destruct (half_range T ltac:(lia)) as [Hpow Hh].
    assert (2 ^ bits T <= 2 ^ 64) by (apply Z.pow_le_mono_r; lia).
    unfold highest in Hhi. destruct (is_signed T); lia. }
  split; [apply align_to_page_floor; auto|].
  split; [|split].
  - unfold is_page_aligned. destruct (Z.eqb_spec p 0); [lia|].
    rewrite H64 by assumption.
    rewrite Z.mul_comm, Z.mod_mul by lia. reflexivity.
  - rewrite align_to_page_floor by auto. f_equal.
    rewrite (Z.mul_comm p (s / p)), Z.div_mul by lia. ring.
  - unfold is_page_aligned. destruct (Z.eqb_spec p 0); [lia|].
    rewrite H64 by assumption. intros E. injection E as E.
    apply Z.eqb_eq in E.
    pose proof (Z.div_mod s p ltac:(lia)). lia.
Qed.

Lemma align_to_page_aligned_witness :
  exists b,
    align_to_page uint32_t 4100 4096 = Return b /\
    is_page_aligned uint32_t b 4096 = Return true /\
    align_to_page uint32_t b 4096 = Return b /\
    (is_page_aligned uint32_t 4100 4096 = Return true -> b = 4100).
Proof.
  apply (align_to_page_aligned uint32_t 4100 4096);
    unfold representable; cbn; lia.
Defined.

(** *** Equality of ranges *)

(** [equal] (and [operator ==]) is an equivalence that ignores the
    overlap, and every predicate and [intersect] respect it: ranges that
    are [equal] cannot be told apart by them. *)
Theorem equal_congruence (a a' b b' : range) :
  equal a a = true /\
  (equal a b = true -> equal b a = true) /\
  (equal a a' = true -> equal a' b = true -> equal a b = true) /\
  equal (mk_range (start a) (end_ a) (overlap b)) a = true /\
  (equal a a' = true -> equal b b' = true ->
   isDisjoint a b = isDisjoint a' b' /\
   isAdjacent a b = isAdjacent a' b' /\
   contains a b = contains a' b' /\
   overlaps a b = overlaps a' b' /\
   equal (intersect a b) (intersect a' b') = true /\
   (merge a b = Throw DisjointRangeError <->
    merge a' b' = Throw DisjointRangeError)).
Proof.
  unfold equal. rewrite !andb_true_iff, !Z.eqb_eq.
  split; [auto|]. split; [intuition congruence|].
  split; [intuition congruence|]. split; [cbn; auto|].
  intros [Es Ee] [Fs Fe].
  unfold isDisjoint, isAdjacent, contains, overlaps, size, merge,
    merge_in_place, isDisjoint, intersect, intersect_in_place; cbn.
  rewrite Es, Ee, Fs, Fe.
  repeat split; try reflexivity; intros H;
    destruct ((start a' >? end_ b') || (end_ a' <? start b'));
    congruence.
Qed.

(** *** [range<T>] for a floating [T] *)









End Range.

(** ** [src/index/indexing.cpp] *)

Module Indexing.

(** *** Parameters of the translation unit *)

Definition WORD_BITS : Z := 16.      (* sizeof(WordType) * 8, WordType = uint16_t *)
Definition KEY_BITS : Z := 64.       (* sizeof(KeyType) * 8, KeyType = uint64_t *)
Definition N_K : Z := 21.
Definition N_BITS : Z := 3.
Definition K_BITS : Z := u8 (N_K * N_BITS).
Definition N_PACKED_CHARS : Z := u8 (WORD_BITS / N_BITS).
Definition N_PADDING_BITS : Z := u8 (WORD_BITS mod N_BITS).
Definition WORD_MAX : Z := 2 ^ WORD_BITS - 1.   (* numeric_limits<WordType>::max() *)
Definition PADDING_MASK : Z := Z.shiftr WORD_MAX N_PADDING_BITS.

Definition DIV : Z := u8 (N_K / N_PACKED_CHARS).
Definition REM : Z := u8 (N_K mod N_PACKED_CHARS).
Definition REM_MASK : Z :=
  if negb (REM =? 0) then Z.shiftr WORD_MAX (WORD_BITS - REM * N_BITS) else 0.
Definition SIG_BITS : Z := u8 (WORD_BITS - N_PADDING_BITS).
Definition CHAR_MASK : Z := Z.shiftr WORD_MAX (WORD_BITS - N_BITS).

(** [typedef std::vector<WordType> SequenceT] *)
Definition SequenceT := list Z.

(** *** Observable behaviour of a run *)

(** What a run of [computeKeys] does, in program order: it reads [seq[i]],
    it stores a key through [key_iter], it logs through [ERROR]. *)
Inductive event :=
| Read (i : Z)
| Write (key : Z)
| Report (seq_size last_block j : Z).

(** A computation carries the events so far and its value; [None] is a
    run cut short by [seq[i]] with [i] outside the vector, which C++ leaves
    undefined. *)
Definition M (A : Type) : Type := list event * option A.

Definition ret {A} (a : A) : M A := ([], Some a).

Definition bind {A B} (m : M A) (f : A -> M B) : M B :=
  match snd m with
  | None => (fst m, None)
  | Some a => let r := f a in (fst m ++ fst r, snd r)
  end.

Notation "x <- m ;; f" := (bind m (fun x => f))
  (at level 61, m at next level, right associativity).
Notation "m ;;; f" := (bind m (fun _ => f))
  (at level 61, right associativity).

(** [seq[i]] *)
Definition index (seq : SequenceT) (i : Z) : M Z :=
  ([Read i], if i <? 0 then None else nth_error seq (Z.to_nat i)).

(** [*key_iter = key; ++key_iter;] *)
Definition store (key : Z) : M unit := ([Write key], Some tt).

(** [ERROR("seq size: " << ... )] *)
Definition report (seq_size last_block j : Z) : M unit :=
  ([Report seq_size last_block j], Some tt).

(** How the sliding loop ended: its condition became false, or a [break]. *)
Inductive loop_exit := Finished | Broke.

(** The keys stored, in the order they were stored. *)
Fixpoint writes (t : list event) : list Z :=
  match t with
  | [] => []
  | Write k :: t' => k :: writes t'
  | _ :: t' => writes t'
  end.

(** The indices read, in the order they were read. *)
Fixpoint reads (t : list event) : list Z :=
  match t with
  | [] => []
  | Read i :: t' => i :: reads t'
  | _ :: t' => reads t'
  end.

Fixpoint reports (t : list event) : list event :=
  match t with
  | [] => []
  | Report a b c :: t' => Report a b c :: reports t'
  | _ :: t' => reports t'
  end.

Definition written {A} (m : M A) : list Z := writes (fst m).
Definition indices_read {A} (m : M A) : list Z := reads (fst m).

(** *** [computeKeys<SCALAR>(seq, key_count, key_iter)] *)

(** [for (j = 0; j < DIV; ++j) { temp = seq[j]; key |= temp << (j * SIG_BITS); }]
    with [n] iterations left. *)
Fixpoint seed_words (seq : SequenceT) (n : nat) (j key : Z) : M Z :=
  match n with
  | O => ret key
  | S n' =>
      temp <- index seq j ;;
      let key := Z.lor key (u64 (Z.shiftl temp (j * SIG_BITS))) in
      seed_words seq n' (u16 (j + 1)) key
  end.

(** The first k-mer: the whole words, then the remainder. *)
Definition seed_key (seq : SequenceT) : M Z :=
  key <- seed_words seq (Z.to_nat DIV) 0 0 ;;
  if REM >? 0 then
    w <- index seq DIV ;;
    let temp := Z.land w REM_MASK in
    ret (Z.lor key (u64 (Z.shiftl temp (DIV * SIG_BITS))))
  else ret key.

(** [for (j = 1; j < key_count; j++) { ... }] with [n] iterations left. *)
Fixpoint slide (seq : SequenceT) (n : nat)
    (j key block last_block last_block_pos : Z) : M loop_exit :=
  match n with
  | O => ret Finished
  | S n' =>
      (* remove the oldest char *)
      let key := Z.shiftr key N_BITS in
      (* append the new char *)
      let temp := Z.shiftr block (last_block_pos * N_BITS) in
      let temp := Z.land temp CHAR_MASK in
      let temp := u64 (Z.shiftl temp ((N_K - 1) * N_BITS)) in
      let key := Z.lor key temp in
      store key ;;;
      (* increment *)
      let last_block_pos := u8 (last_block_pos + 1) in
      if last_block_pos mod N_PACKED_CHARS =? 0 then
        let last_block_pos := 0 in
        let last_block := u8 (last_block + 1) in
        let size := Z.of_nat (length seq) in
        if last_block >? size then
          report size last_block j ;;; ret Broke
        else if last_block =? size then ret Broke
        else
          block <- index seq last_block ;;
          slide seq n' (u16 (j + 1)) key block last_block last_block_pos
      else slide seq n' (u16 (j + 1)) key block last_block last_block_pos
  end.

Definition computeKeys (seq : SequenceT) (key_count : Z) : M loop_exit :=
  key <- seed_key seq ;;
  store key ;;;
  let last_block := DIV in
  let last_block_pos := REM in
  block <- index seq last_block ;;
  slide seq (Z.to_nat (key_count - 1)) 1 key block last_block last_block_pos.

(** *** The driver: key counts and offsets *)

(** The [key_count] argument the bulk [computeKeys<SCALAR>] passes for a
    read of length [l]: the [int] value [l - N_K + 1] bound to a
    [const ReadLengthType&]. *)
Definition unit_key_count (K l : Z) : Z := u16 (l - K + 1).

(** [main]: [offsets[i] = offsets[i-1] +
    static_cast<ReadBaseCountType>(lengths[i-1] - N_K + 1)], the entries
    after [offsets[i-1] = prev]. [K] stands for [N_K]. *)
Fixpoint offsets_after (K prev : Z) (lengths : list Z) : list Z :=
  match lengths with
  | [] => []
  | l :: rest =>
      let next := u64 (prev + u64 (l - K + 1)) in
      next :: offsets_after K next rest
  end.

Definition prefix_offsets (K : Z) (lengths : list Z) : list Z :=
  0 :: offsets_after K 0 lengths.

(** The layout the specification describes: the sum of
    [length - K + 1] over the units, and the same sum with a unit shorter
    than [K] counted as zero keys. *)
Definition key_counts_sum (K : Z) (lengths : list Z) : Z :=
  fold_right (fun l acc => (l - K + 1) + acc) 0 lengths.

Definition clamped_sum (K : Z) (lengths : list Z) : Z :=
  fold_right (fun l acc => Z.max (l - K + 1) 0 + acc) 0 lengths.

(** *** The specification's view of a packed sequence *)

(** Character [i] of a packed sequence: slot [i mod N_PACKED_CHARS] of word
    [i / N_PACKED_CHARS], slots packed from the low-order end. *)
Definition character (seq : SequenceT) (i : Z) : Z :=
  Z.land
    (Z.shiftr (nth (Z.to_nat (i / N_PACKED_CHARS)) seq 0)
              ((i mod N_PACKED_CHARS) * N_BITS))
    CHAR_MASK.

(** Sum of [character (j + i) * 2 ^ (i * N_BITS)] for [n] values of [i]
    from [i] on. *)
Fixpoint window_sum (seq : SequenceT) (j i : Z) (n : nat) : Z :=
  match n with
  | O => 0
  | S n' => character seq (j + i) * 2 ^ (i * N_BITS) + window_sum seq j (i + 1) n'
  end.

(** The key of window [j]: its earliest character in the lowest bit group. *)
Definition window_key (seq : SequenceT) (j : Z) : Z :=
  window_sum seq j 0 (Z.to_nat N_K).

(** A well-formed packed sequence of [L] characters, as [generateStrings]
    builds it: [ceil(L / N_PACKED_CHARS)] words, padding bits zero, and the
    unused slots of a partly filled last word zero. *)
Definition well_formed (seq : SequenceT) (L : Z) : Prop :=
  Z.of_nat (length seq) = (L + N_PACKED_CHARS - 1) / N_PACKED_CHARS /\
  Forall (fun w => 0 <= w <= PADDING_MASK) seq /\
  (L mod N_PACKED_CHARS > 0 ->
   last seq 0 < 2 ^ ((L mod N_PACKED_CHARS) * N_BITS)).

(** [n] consecutive integers from [a] on. *)
Fixpoint zseq (a : Z) (n : nat) : list Z :=
  match n with
  | O => []
  | S n' => a :: zseq (a + 1) n'
  end.

(** The window positions [0 .. n-1]. *)
Definition positions (n : Z) : list Z := zseq 0 (Z.to_nat n).

(** *** Constants, evaluated *)

Lemma constants :
  N_BITS = 3 /\ N_K = 21 /\ N_PACKED_CHARS = 5 /\ DIV = 4 /\ REM = 1 /\
  REM_MASK = 7 /\ SIG_BITS = 15 /\ CHAR_MASK = 7 /\ PADDING_MASK = 32767 /\
  WORD_MAX = 65535.
Proof. vm_compute. repeat split. Qed.

Ltac constants_to_numbers :=
  change N_PACKED_CHARS with 5 in *;
  change REM_MASK with 7 in *;
  change SIG_BITS with 15 in *;
  change CHAR_MASK with 7 in *;
  change PADDING_MASK with 32767 in *;
  change DIV with 4 in *;
  change REM with 1 in *;
  change N_BITS with 3 in *;
  change N_K with 21 in *.

(** *** Traces *)

Lemma writes_app t1 t2 : writes (t1 ++ t2) = writes t1 ++ writes t2.
Proof.
  induction t1 as [|[i|k|a b c] t1 IH]; cbn; rewrite ?IH; reflexivity.
Qed.

Lemma reads_app t1 t2 : reads (t1 ++ t2) = reads t1 ++ reads t2.
Proof.
  induction t1 as [|[i|k|a b c] t1 IH]; cbn; rewrite ?IH; reflexivity.
Qed.

Lemma reports_app t1 t2 : reports (t1 ++ t2) = reports t1 ++ reports t2.
Proof.
  induction t1 as [|[i|k|a b c] t1 IH]; cbn; rewrite ?IH; reflexivity.
Qed.

Lemma bind_some {A B} (t : list event) (a : A) (f : A -> M B) :
  bind (t, Some a) f = (t ++ fst (f a), snd (f a)).
Proof. reflexivity. Qed.

Lemma index_some (seq : SequenceT) (i : Z) :
  0 <= i < Z.of_nat (length seq) ->
  index seq i = ([Read i], Some (nth (Z.to_nat i) seq 0)).
Proof.
  intros H. unfold index.
  destruct (Z.ltb_spec i 0); [lia|].
  f_equal. apply nth_error_nth'. lia.
Qed.

Lemma u8_range x : 0 <= u8 x < 256.
Proof. unfold u8, to_unsigned. apply Z.mod_pos_bound. reflexivity. Qed.

(** One iteration of the sliding loop, unfolded. *)
Definition next_key (key block last_block_pos : Z) : Z :=
  Z.lor (Z.shiftr key N_BITS)
        (u64 (Z.shiftl (Z.land (Z.shiftr block (last_block_pos * N_BITS)) CHAR_MASK)
                       ((N_K - 1) * N_BITS))).

Definition advance (seq : SequenceT) (n : nat) (j key block last_block last_block_pos : Z)
  : M loop_exit :=
  let last_block_pos := u8 (last_block_pos + 1) in
  if last_block_pos mod N_PACKED_CHARS =? 0 then
    let last_block := u8 (last_block + 1) in
    let size := Z.of_nat (length seq) in
    if last_block >? size then report size last_block j ;;; ret Broke
    else if last_block =? size then ret Broke
    else
      block <- index seq last_block ;;
      slide seq n (u16 (j + 1)) key block last_block 0
  else slide seq n (u16 (j + 1)) key block last_block last_block_pos.

Lemma slide_succ seq n j key block last_block last_block_pos :
  slide seq (S n) j key block last_block last_block_pos =
  let key' := next_key key block last_block_pos in
  (Write key' :: fst (advance seq n j key' block last_block last_block_pos),
   snd (advance seq n j key' block last_block last_block_pos)).
Proof. reflexivity. Qed.

(** *** The sliding loop stays inside the vector *)

Section Bounds.
Variable seq : SequenceT.

Let size := Z.of_nat (length seq).

(** A run that read only inside the vector, was not cut short, logged
    nothing, and stored at most [n] keys, exactly [n] when the loop ran to
    its end. *)
Definition contained (m : M loop_exit) (n : nat) : Prop :=
  snd m <> None /\
  Forall (fun i => 0 <= i < size) (reads (fst m)) /\
  reports (fst m) = [] /\
  (length (writes (fst m)) <= n)%nat /\
  (snd m = Some Finished -> length (writes (fst m)) = n).

Lemma slide_contained n : forall j key block last_block last_block_pos,
  0 <= last_block < size -> last_block < 256 ->
  contained (slide seq n j key block last_block last_block_pos) n.
Proof.
  unfold contained, size.
  induction n as [|n IH]; intros j key block lb pos Hlb Hlb8.
  - unfold contained; cbn.
    split; [congruence|]. split; [constructor|]. split; [reflexivity|].
    split; [lia|reflexivity].
  - rewrite slide_succ. cbv zeta. unfold advance.
    set (key' := next_key key block pos).
    assert (Hstep : forall m, contained m n ->
              contained (Write key' :: fst m, snd m) (S n)).
    { unfold contained, size. intros m (H1 & H2 & H3 & H4 & H5). cbn.
      split; [exact H1|]. split; [exact H2|]. split; [exact H3|].
      split; [lia|]. intros E. rewrite (H5 E). reflexivity. }
    assert (Hbroke : contained (Write key' :: [], Some Broke) (S n)).
    { unfold contained, size; cbn.
      split; [congruence|]. split; [constructor|]. split; [reflexivity|].
      split; [lia|congruence]. }
    destruct (u8 (pos + 1) mod N_PACKED_CHARS =? 0).
    + pose proof (u8_range (lb + 1)) as Hu.
      assert (Hle : u8 (lb + 1) <= Z.of_nat (length seq)).
      { unfold u8, to_unsigned in *. change (2 ^ 8) with 256 in *.
        destruct (Z.eq_dec lb 255) as [->|Hne].
        - cbn. lia.
        - rewrite Z.mod_small by lia. lia. }
      destruct (Z.gtb_spec (u8 (lb + 1)) (Z.of_nat (length seq))); [lia|].
      destruct (Z.eqb_spec (u8 (lb + 1)) (Z.of_nat (length seq))).
      * exact Hbroke.
      * rewrite index_some by lia.
        rewrite bind_some.
        specialize (IH (u16 (j + 1)) key' (nth (Z.to_nat (u8 (lb + 1))) seq 0)
                       (u8 (lb + 1)) 0 ltac:(lia) ltac:(lia)).
        destruct IH as (H1 & H2 & H3 & H4 & H5).
        unfold contained, size; cbn.
        split; [exact H1|]. split; [constructor; [lia|exact H2]|].
        split; [exact H3|]. split; [lia|].
        intros E. rewrite (H5 E). reflexivity.
    + apply Hstep, IH; assumption.
Qed.

End Bounds.

(** *** The seed key *)

(** The seed key as the code assembles it from the first five words. *)
Definition seed_of (w0 w1 w2 w3 w4 : Z) : Z :=
  Z.lor (Z.lor (Z.lor (Z.lor (Z.lor 0
    (u64 (Z.shiftl w0 (0 * SIG_BITS))))
    (u64 (Z.shiftl w1 (1 * SIG_BITS))))
    (u64 (Z.shiftl w2 (2 * SIG_BITS))))
    (u64 (Z.shiftl w3 (3 * SIG_BITS))))
    (u64 (Z.shiftl (Z.land w4 REM_MASK) (DIV * SIG_BITS))).

Lemma five_words (seq : SequenceT) :
  DIV < Z.of_nat (length seq) ->
  exists w0 w1 w2 w3 w4 rest, seq = w0 :: w1 :: w2 :: w3 :: w4 :: rest.
Proof.
  change DIV with 4. intros H.
  destruct seq as [|w0 [|w1 [|w2 [|w3 [|w4 rest]]]]]; cbn in H; try lia.
  now exists w0, w1, w2, w3, w4, rest.
Qed.

Lemma seed_key_five w0 w1 w2 w3 w4 rest :
  seed_key (w0 :: w1 :: w2 :: w3 :: w4 :: rest) =
  ([Read 0; Read 1; Read 2; Read 3; Read 4], Some (seed_of w0 w1 w2 w3 w4)).
Proof. reflexivity. Qed.

Lemma computeKeys_five w0 w1 w2 w3 w4 rest key_count :
  let seq := w0 :: w1 :: w2 :: w3 :: w4 :: rest in
  let run := slide seq (Z.to_nat (key_count - 1)) 1 (seed_of w0 w1 w2 w3 w4) w4 4 1 in
  computeKeys seq key_count =
  ([Read 0; Read 1; Read 2; Read 3; Read 4; Write (seed_of w0 w1 w2 w3 w4); Read 4]
     ++ fst run, snd run).
Proof. reflexivity. Qed.

(** The first key written is the seed key. *)
Lemma computeKeys_first_key (seq : SequenceT) (key_count : Z) :
  DIV < Z.of_nat (length seq) ->
  hd_error (written (computeKeys seq key_count)) = snd (seed_key seq).
Proof.
  intros H. destruct (five_words seq H) as (w0 & w1 & w2 & w3 & w4 & rest & ->).
  rewrite computeKeys_five, seed_key_five. reflexivity.
Qed.

(** Every read of a run on a vector with the five seed words is inside
    the vector, and the seed key is one of the keys it stores. *)
Lemma computeKeys_contained (seq : SequenceT) (key_count : Z) :
  DIV < Z.of_nat (length seq) ->
  contained seq (computeKeys seq key_count) (S (Z.to_nat (key_count - 1))).
Proof.
  intros H. destruct (five_words seq H) as (w0 & w1 & w2 & w3 & w4 & rest & E).
  pose proof (slide_contained seq (Z.to_nat (key_count - 1)) 1
                (seed_of w0 w1 w2 w3 w4) w4 4 1) as C.
  change DIV with 4 in H.
  specialize (C ltac:(lia) ltac:(lia)).
  unfold contained in *.
  destruct C as (C1 & C2 & C3 & C4 & C5).
  subst seq. rewrite computeKeys_five. cbv zeta. cbn [fst snd].
  rewrite reads_app, writes_app, reports_app.
  set (sq := w0 :: w1 :: w2 :: w3 :: w4 :: rest) in *.
  split; [exact C1|]. split.
  { cbn [reads app]. repeat (constructor; [lia|]). exact C2. }
  split; [exact C3|].
  split; [cbn [writes app length]; lia|].
  intros F. cbn [writes app length]. rewrite (C5 F). reflexivity.
Qed.

(** C4 fails as stated: with four words and [key_count = 1] the seed
    computation reads [seq[4]], and with no word at all it reads [seq[0]];
    and where the cursor does reach the end of a five-word vector with
    keys still due, the loop stops with five of nine keys and logs
    nothing. *)
Lemma computeKeys_seed_reads_past_end :
  computeKeys [0; 0; 0; 0] 1 = ([Read 0; Read 1; Read 2; Read 3; Read 4], None) /\
  ~ Forall (fun i => 0 <= i < Z.of_nat (length [0; 0; 0; 0]))
           (indices_read (computeKeys [0; 0; 0; 0] 1)) /\
  computeKeys [] 1 = ([Read 0], None) /\
  snd (computeKeys [1; 2; 3; 4; 5] 9) = Some Broke /\
  Z.of_nat (length (written (computeKeys [1; 2; 3; 4; 5] 9))) = 5 /\
  reports (fst (computeKeys [1; 2; 3; 4; 5] 9)) = [].
Proof.
  split; [reflexivity|]. split; [|repeat split].
  intros F. change (indices_read (computeKeys [0; 0; 0; 0] 1)) with [0; 1; 2; 3; 4] in F.
  rewrite Forall_forall in F. specialize (F 4 ltac:(cbn; tauto)). cbn in F. lia.
Qed.

(** C8, as the code has it. The seed key is assembled from the [DIV]
    whole words as they are, padding bit included, and from word [DIV]
    masked with [REM_MASK]: two vectors whose first [DIV] words are equal
    and whose word [DIV] agrees on the bits of [REM_MASK] give the same
    seed key, whatever the other bits of word [DIV] are. *)
Theorem seed_key_depends_on (s1 s2 : SequenceT) (k1 k2 : Z) :
  DIV < Z.of_nat (length s1) -> DIV < Z.of_nat (length s2) ->
  firstn (Z.to_nat DIV) s1 = firstn (Z.to_nat DIV) s2 ->
  Z.land (nth (Z.to_nat DIV) s1 0) REM_MASK =
  Z.land (nth (Z.to_nat DIV) s2 0) REM_MASK ->
  snd (seed_key s1) = snd (seed_key s2) /\
  hd_error (written (computeKeys s1 k1)) = hd_error (written (computeKeys s2 k2)).
Proof.
  intros H1 H2 F R.
  rewrite !computeKeys_first_key by assumption.
  assert (E : snd (seed_key s1) = snd (seed_key s2)); [|split; exact E].
  destruct (five_words s1 H1) as (a0 & a1 & a2 & a3 & a4 & ra & ->).
  destruct (five_words s2 H2) as (b0 & b1 & b2 & b3 & b4 & rb & ->).
  change (Z.to_nat DIV) with 4%nat in *. cbn [firstn] in F. cbn [nth] in R.
  injection F as -> -> -> ->.
  rewrite !seed_key_five. cbn [snd]. unfold seed_of. rewrite R. reflexivity.
Qed.

Lemma seed_key_depends_on_witness :
  snd (seed_key [1; 2; 3; 4; 5 + 8 * 77]) = snd (seed_key [1; 2; 3; 4; 5; 6]) /\
  hd_error (written (computeKeys [1; 2; 3; 4; 5 + 8 * 77] 1)) =
  hd_error (written (computeKeys [1; 2; 3; 4; 5; 6] 6)).
Proof.
  apply (seed_key_depends_on [1; 2; 3; 4; 5 + 8 * 77] [1; 2; 3; 4; 5; 6] 1 6);
    vm_compute; reflexivity.
Defined.

(** C8 fails as stated: two vectors that agree on every significant bit
    and differ only in the padding bit of word 0 get different seed
    keys. *)
Lemma seed_key_keeps_padding_bit :
  map (fun w => Z.land w PADDING_MASK) [32768; 0; 0; 0; 0] =
  map (fun w => Z.land w PADDING_MASK) [0; 0; 0; 0; 0] /\
  hd_error (written (computeKeys [32768; 0; 0; 0; 0] 1)) = Some 32768 /\
  hd_error (written (computeKeys [0; 0; 0; 0; 0] 1)) = Some 0 /\
  hd_error (written (computeKeys [32768; 0; 0; 0; 0] 1)) <>
  hd_error (written (computeKeys [0; 0; 0; 0; 0] 1)).
Proof.
  repeat split; try reflexivity. vm_compute. discriminate.
Qed.

(** *** Bit groups as digits *)

Lemma land_low_shiftl (a b n : Z) :
  0 <= n -> 0 <= a < 2 ^ n -> Z.land a (Z.shiftl b n) = 0.
Proof.
  intros Hn Ha. apply Z.bits_inj'. intros m Hm.
  rewrite Z.land_spec, Z.bits_0.
  destruct (Z.lt_ge_cases m n) as [Hlt|Hge].
  - rewrite Z.shiftl_spec_low by assumption. apply andb_false_r.
  - destruct (Z.eq_dec a 0) as [->|Hne].
    + rewrite Z.bits_0. reflexivity.
    + rewrite (Z.bits_above_log2 a m); [reflexivity|lia|].
      apply Z.lt_le_trans with n; [|assumption].
      apply Z.log2_lt_pow2; lia.
Qed.

Lemma lor_shiftl_add (a b n : Z) :
  0 <= n -> 0 <= a < 2 ^ n -> Z.lor a (Z.shiftl b n) = a + b * 2 ^ n.
Proof.
  intros Hn Ha.
  pose proof (Z.add_lor_land a (Z.shiftl b n)) as E.
  rewrite land_low_shiftl in E by assumption.
  rewrite Z.shiftl_mul_pow2 in * by assumption. lia.
Qed.

Lemma land_7 (x : Z) : Z.land x 7 = x mod 8.
Proof. change 7 with (Z.ones 3). rewrite Z.land_ones by lia. reflexivity. Qed.

Lemma character_range (seq : SequenceT) (i : Z) : 0 <= character seq i < 8.
Proof.
  unfold character. change CHAR_MASK with 7. rewrite land_7.
  apply Z.mod_pos_bound. reflexivity.
Qed.

(** A character read through the cursor: word [i / 5], slot [i mod 5]. *)
Lemma character_cursor (seq : SequenceT) (i : Z) :
  0 <= i ->
  character seq i =
  Z.land (Z.shiftr (nth (Z.to_nat (i / N_PACKED_CHARS)) seq 0)
                   ((i mod N_PACKED_CHARS) * N_BITS)) CHAR_MASK.
Proof. reflexivity. Qed.

Lemma window_sum_shift (seq : SequenceT) (j : Z) (n : nat) : forall i,
  0 <= i ->
  window_sum seq j (i + 1) n = 8 * window_sum seq (j + 1) i n.
Proof.
  induction n as [|n IH]; intros i Hi; cbn [window_sum]; [reflexivity|].
  rewrite IH by lia.
  replace (j + (i + 1)) with (j + 1 + i) by lia.
  change N_BITS with 3.
  replace ((i + 1) * 3) with (i * 3 + 3) by lia.
  rewrite Z.pow_add_r by lia. change (2 ^ 3) with 8. ring.
Qed.

Lemma window_sum_last (seq : SequenceT) (j : Z) (n : nat) : forall i,
  window_sum seq j i (S n) =
  window_sum seq j i n
  + character seq (j + (i + Z.of_nat n)) * 2 ^ ((i + Z.of_nat n) * N_BITS).
Proof.
  induction n as [|n IH]; intros i.
  - cbn [window_sum]. change (Z.of_nat 0) with 0. rewrite !Z.add_0_r. ring.
  - change (window_sum seq j i (S (S n))) with
      (character seq (j + i) * 2 ^ (i * N_BITS) + window_sum seq j (i + 1) (S n)).
    rewrite IH. cbn [window_sum].
    replace (i + 1 + Z.of_nat n) with (i + Z.of_nat (S n)) by lia. ring.
Qed.

Lemma window_sum_bound (seq : SequenceT) (n : nat) : forall j,
  0 <= window_sum seq j 0 n < 2 ^ (Z.of_nat n * N_BITS).
Proof.
  induction n as [|n IH]; intros j; cbn [window_sum].
  - cbn. lia.
  - rewrite (window_sum_shift seq j n 0) by lia.
    specialize (IH (j + 1)).
    pose proof (character_range seq (j + 0)) as Hc.
    change N_BITS with 3 in *.
    replace (Z.of_nat (S n) * 3) with (Z.of_nat n * 3 + 3) by lia.
    rewrite Z.pow_add_r by lia. change (2 ^ 3) with 8.
    change (2 ^ (0 * 3)) with 1. lia.
Qed.

(** Sliding the window by one character: drop the lowest bit group, put
    the new character on top. *)
Lemma window_key_next (seq : SequenceT) (j : Z) :
  window_key seq (j + 1) =
  window_key seq j / 8 + character seq (j + N_K) * 2 ^ ((N_K - 1) * N_BITS).
Proof.
  unfold window_key. change (Z.to_nat N_K) with 21%nat.
  rewrite (window_sum_last seq (j + 1) 20 0).
  change (window_sum seq j 0 21) with
    (character seq (j + 0) * 2 ^ (0 * N_BITS) + window_sum seq j (0 + 1) 20).
  rewrite (window_sum_shift seq j 20 0) by lia.
  pose proof (character_range seq (j + 0)) as Hc.
  pose proof (window_sum_bound seq 20 (j + 1)) as Hb.
  change (2 ^ (0 * N_BITS)) with 1.
  replace (j + 1 + (0 + Z.of_nat 20)) with (j + N_K) by (change N_K with 21; lia).
  change ((0 + Z.of_nat 20) * N_BITS) with ((N_K - 1) * N_BITS).
  f_equal.
  apply Z.div_unique with (character seq (j + 0)); lia.
Qed.

Lemma window_key_bound (seq : SequenceT) (j : Z) :
  0 <= window_key seq j < 2 ^ 63.
Proof. apply (window_sum_bound seq 21 j). Qed.

(** The loop body computes the next window key from the previous one. *)
Lemma next_key_window (seq : SequenceT) (p : Z) :
  N_K <= p ->
  next_key (window_key seq (p - N_K))
           (nth (Z.to_nat (p / N_PACKED_CHARS)) seq 0)
           (p mod N_PACKED_CHARS)
  = window_key seq (p - N_K + 1).
Proof.
  intros Hp. unfold next_key.
  rewrite <- character_cursor by (change N_K with 21 in Hp; lia).
  rewrite window_key_next.
  replace (p - N_K + N_K) with p by lia.
  pose proof (character_range seq p) as Hc.
  pose proof (window_key_bound seq (p - N_K)) as Hb.
  change N_BITS with 3. change ((N_K - 1) * 3) with 60.
  rewrite Z.shiftr_div_pow2 by lia. change (2 ^ 3) with 8.
  assert (Hd : 0 <= window_key seq (p - N_K) / 8 < 2 ^ 60).
  { split; [apply Z.div_pos; lia|].
    apply Z.div_lt_upper_bound; [lia|]. change (8 * 2 ^ 60) with (2 ^ 63). lia. }
  assert (Hs : u64 (Z.shiftl (character seq p) 60) = Z.shiftl (character seq p) 60).
  { apply u64_small. rewrite Z.shiftl_mul_pow2 by lia.
    change (2 ^ 60) with 1152921504606846976.
    change (2 ^ 64) with 18446744073709551616. lia. }
  rewrite Hs, lor_shiftl_add by lia. reflexivity.
Qed.

(** *** The seed key is the key of window 0 *)

Lemma character_digit (seq : SequenceT) (k : nat) (s i : Z) :
  0 <= s < 5 -> i = 5 * Z.of_nat k + s ->
  character seq i = (nth k seq 0 / 2 ^ (s * 3)) mod 8.
Proof.
  intros Hs ->. unfold character. constants_to_numbers.
  replace ((5 * Z.of_nat k + s) / 5) with (Z.of_nat k)
    by (apply Z.div_unique with s; lia).
  replace ((5 * Z.of_nat k + s) mod 5) with s
    by (apply Z.mod_unique with (Z.of_nat k); lia).
  rewrite Nat2Z.id, Z.shiftr_div_pow2 by lia. apply land_7.
Qed.

Ltac powers_to_numbers :=
  repeat match goal with
         | |- context [2 ^ ?e] =>
             let v := eval vm_compute in (2 ^ e) in change (2 ^ e) with v
         end.

Lemma word_digits (w : Z) :
  0 <= w <= PADDING_MASK ->
  w = (w / 1) mod 8 * 1 + (w / 8) mod 8 * 8 + (w / 64) mod 8 * 64
      + (w / 512) mod 8 * 512 + (w / 4096) mod 8 * 4096.
Proof.
  change PADDING_MASK with 32767. intros H.
  rewrite Z.div_1_r.
  Z.div_mod_to_equations. lia.
Qed.

(** For words without padding bits the concatenation is a sum. *)
Lemma seed_of_sum (w0 w1 w2 w3 w4 : Z) :
  0 <= w0 <= PADDING_MASK -> 0 <= w1 <= PADDING_MASK ->
  0 <= w2 <= PADDING_MASK -> 0 <= w3 <= PADDING_MASK ->
  seed_of w0 w1 w2 w3 w4 =
  w0 + w1 * 2 ^ 15 + w2 * 2 ^ 30 + w3 * 2 ^ 45 + (w4 mod 8) * 2 ^ 60.
Proof.
  change PADDING_MASK with 32767. intros H0 H1 H2 H3.
  unfold seed_of. constants_to_numbers.
  pose proof (Z.mod_pos_bound w4 8 eq_refl) as H4.
  rewrite land_7.
  assert (U : forall w n b, 0 <= n -> 0 <= w < b -> b * 2 ^ n <= 2 ^ 64 ->
                u64 (Z.shiftl w n) = Z.shiftl w n).
  { intros w n b Hn Hw Hb. apply u64_small.
    rewrite Z.shiftl_mul_pow2 by lia.
    assert (0 < 2 ^ n) by (apply Z.pow_pos_nonneg; lia). nia. }
  rewrite (U w0 (0 * 15) 32768), (U w1 (1 * 15) 32768), (U w2 (2 * 15) 32768),
    (U w3 (3 * 15) 32768), (U (w4 mod 8) (4 * 15) 8)
    by (first [lia | vm_compute; discriminate]).
  change (0 * 15) with 0. change (1 * 15) with 15. change (2 * 15) with 30.
  change (3 * 15) with 45. change (4 * 15) with 60.
  rewrite Z.shiftl_0_r, Z.lor_0_l.
  rewrite (lor_shiftl_add w0 w1 15) by (powers_to_numbers; lia).
  rewrite (lor_shiftl_add _ w2 30) by (powers_to_numbers; lia).
  rewrite (lor_shiftl_add _ w3 45) by (powers_to_numbers; lia).
  rewrite (lor_shiftl_add _ (w4 mod 8) 60) by (powers_to_numbers; lia).
  reflexivity.
Qed.

Lemma seed_of_window (w0 w1 w2 w3 w4 : Z) (rest : list Z) :
  0 <= w0 <= PADDING_MASK -> 0 <= w1 <= PADDING_MASK ->
  0 <= w2 <= PADDING_MASK -> 0 <= w3 <= PADDING_MASK ->
  seed_of w0 w1 w2 w3 w4 = window_key (w0 :: w1 :: w2 :: w3 :: w4 :: rest) 0.
Proof.
  intros H0 H1 H2 H3. rewrite seed_of_sum by assumption.
  unfold window_key. change (Z.to_nat N_K) with 21%nat. cbn [window_sum].
  change N_BITS with 3.
  set (sq := w0 :: w1 :: w2 :: w3 :: w4 :: rest).
  rewrite (character_digit sq 0 0), (character_digit sq 0 1),
    (character_digit sq 0 2), (character_digit sq 0 3), (character_digit sq 0 4),
    (character_digit sq 1 0), (character_digit sq 1 1),
    (character_digit sq 1 2), (character_digit sq 1 3), (character_digit sq 1 4),
    (character_digit sq 2 0), (character_digit sq 2 1),
    (character_digit sq 2 2), (character_digit sq 2 3), (character_digit sq 2 4),
    (character_digit sq 3 0), (character_digit sq 3 1),
    (character_digit sq 3 2), (character_digit sq 3 3), (character_digit sq 3 4),
    (character_digit sq 4 0) by (cbn; lia).
  subst sq. cbn [nth].
  pose proof (word_digits w0 H0) as D0. pose proof (word_digits w1 H1) as D1.
  pose proof (word_digits w2 H2) as D2. pose proof (word_digits w3 H3) as D3.
  powers_to_numbers. rewrite (Z.div_1_r w4). lia.
Qed.

(** *** The sliding loop produces the window keys *)

Lemma zseq_length a n : length (zseq a n) = n.
Proof. revert a; induction n; intros a; cbn; [|rewrite IHn]; reflexivity. Qed.

Lemma zseq_nth n : forall a (i : nat) d,
  (i < n)%nat -> nth i (zseq a n) d = a + Z.of_nat i.
Proof.
  induction n as [|n IH]; intros a i d Hi; [lia|].
  destruct i as [|i]; cbn [zseq nth]; [lia|].
  rewrite IH by lia. lia.
Qed.

(** Whatever the cursor does after the last iteration, no key follows. *)
Lemma advance_last seq j key block last_block last_block_pos :
  writes (fst (advance seq 0 j key block last_block last_block_pos)) = [].
Proof.
  unfold advance.
  repeat match goal with
         | |- context [if ?c then _ else _] => destruct c
         end; try reflexivity.
  unfold index, bind. cbn [fst snd].
  match goal with |- context [match ?o with _ => _ end] => destruct o end;
    reflexivity.
Qed.

Lemma cursor_next (p : Z) :
  0 <= p ->
  (p mod 5 = 4 /\ (p + 1) / 5 = p / 5 + 1 /\ (p + 1) mod 5 = 0) \/
  (p mod 5 < 4 /\ (p + 1) / 5 = p / 5 /\ (p + 1) mod 5 = p mod 5 + 1).
Proof. intros H. Z.div_mod_to_equations. lia. Qed.

Section Sliding.
Variable seq : SequenceT.

(** The loop invariant: before the iteration that consumes character [p]
    the key is the key of window [p - N_K], the cursor stands on
    character [p], and the characters still to be consumed lie in the
    vector and in the first 256 words. *)
Lemma slide_writes n : forall p j key block last_block last_block_pos,
  N_K <= p ->
  last_block = p / N_PACKED_CHARS ->
  last_block_pos = p mod N_PACKED_CHARS ->
  block = nth (Z.to_nat last_block) seq 0 ->
  key = window_key seq (p - N_K) ->
  p + Z.of_nat n <= N_PACKED_CHARS * Z.of_nat (length seq) ->
  p + Z.of_nat n <= N_PACKED_CHARS * 256 ->
  writes (fst (slide seq n j key block last_block last_block_pos)) =
  map (window_key seq) (zseq (p - N_K + 1) n).
Proof.
  induction n as [|n IH]; intros p j key block lb pos Hp Hlb Hpos Hblock Hkey Hsz H8;
    [reflexivity|].
  rewrite slide_succ. cbv zeta. cbn [fst writes zseq map].
  subst key block lb pos. rewrite next_key_window by assumption.
  f_equal.
  destruct n as [|n]; [apply advance_last|].
  unfold advance. constants_to_numbers.
  assert (Hp0 : 0 <= p) by lia.
  pose proof (Z.mod_pos_bound p 5 eq_refl) as Hm.
  assert (Hd : 0 <= p / 5) by (apply Z.div_pos; lia).
  assert (Hd' : (p + 1) / 5 < Z.of_nat (length seq) /\ (p + 1) / 5 < 256).
  { split; apply Z.div_lt_upper_bound; lia. }
  rewrite (u8_small (p mod 5 + 1)) by lia.
  replace (p - 21 + 1 + 1) with (p + 1 - 21 + 1) by lia.
  destruct (cursor_next p Hp0) as [(E4 & Ed & Em)|(E4 & Ed & Em)].
  - rewrite E4. change ((4 + 1) mod 5 =? 0) with true. cbv iota.
    rewrite <- Ed. rewrite (u8_small ((p + 1) / 5)) by lia.
    destruct (Z.gtb_spec ((p + 1) / 5) (Z.of_nat (length seq))); [lia|].
    destruct (Z.eqb_spec ((p + 1) / 5) (Z.of_nat (length seq))); [lia|].
    rewrite index_some by lia. rewrite bind_some. cbn [fst reads writes app].
    apply IH; try reflexivity; try lia.
    f_equal; lia.
  - assert (Hne : (p mod 5 + 1) mod 5 <> 0).
    { rewrite Z.mod_small by lia. lia. }
    apply Z.eqb_neq in Hne. rewrite Hne.
    apply IH; try lia.
    f_equal; lia.
Qed.

End Sliding.

(** *** Well-formed sequences *)

Lemma well_formed_size (seq : SequenceT) (L : Z) :
  well_formed seq L -> 0 <= L ->
  L <= N_PACKED_CHARS * Z.of_nat (length seq) /\
  N_PACKED_CHARS * Z.of_nat (length seq) < L + N_PACKED_CHARS.
Proof.
  intros (Hlen & _) HL. rewrite Hlen. change N_PACKED_CHARS with 5.
  Z.div_mod_to_equations. lia.
Qed.

Lemma positions_succ (n : Z) :
  1 <= n -> positions n = 0 :: zseq 1 (Z.to_nat (n - 1)).
Proof.
  intros H. unfold positions.
  replace (Z.to_nat n) with (S (Z.to_nat (n - 1))) by lia. reflexivity.
Qed.

(** On a well-formed sequence of at most [256 * N_PACKED_CHARS]
    characters the run is not cut short and stores the window keys in
    window order. *)
Lemma computeKeys_writes_windows (seq : SequenceT) (L : Z) :
  well_formed seq L ->
  N_K <= L <= N_PACKED_CHARS * 256 ->
  written (computeKeys seq (L - N_K + 1)) =
  map (window_key seq) (positions (L - N_K + 1)).
Proof.
  intros W HL. constants_to_numbers.
  destruct (well_formed_size seq L W ltac:(lia)) as [Hs _].
  destruct W as (Hlen & Hw & _). constants_to_numbers.
  assert (H5 : DIV < Z.of_nat (length seq)) by (change DIV with 4; lia).
  destruct (five_words seq H5) as (w0 & w1 & w2 & w3 & w4 & rest & E).
  rewrite positions_succ by lia.
  replace (L - 21 + 1 - 1) with (L - 21) by lia.
  assert (Hseed : seed_of w0 w1 w2 w3 w4 = window_key seq 0).
  { subst seq.
    inversion Hw as [|? ? B0 Hw1]; subst.
    inversion Hw1 as [|? ? B1 Hw2]; subst.
    inversion Hw2 as [|? ? B2 Hw3]; subst.
    inversion Hw3 as [|? ? B3 Hw4]; subst.
    apply seed_of_window; assumption. }
  pose proof (slide_writes seq (Z.to_nat (L - 21)) 21 1
                (seed_of w0 w1 w2 w3 w4) w4 4 1) as S.
  constants_to_numbers.
  specialize (S ltac:(lia) eq_refl eq_refl).
  rewrite E in S at 1. specialize (S eq_refl Hseed ltac:(lia) ltac:(lia)).
  change (21 - 21 + 1) with 1 in S.
  unfold written. rewrite E at 1. rewrite computeKeys_five. cbv zeta.
  cbn [fst]. rewrite writes_app. cbn [writes app map].
  replace (L - 21 + 1 - 1) with (L - 21) by lia.
  rewrite <- E, S, Hseed. reflexivity.
Qed.

(** With at least 256 words the 8-bit cursor never equals the size, so
    the loop always runs to its end. *)
Lemma slide_finishes_long (seq : SequenceT) (n : nat) :
  256 <= Z.of_nat (length seq) ->
  forall j key block last_block last_block_pos,
  snd (slide seq n j key block last_block last_block_pos) = Some Finished.
Proof.
  intros Hsz. induction n as [|n IH]; intros j key block lb pos; [reflexivity|].
  rewrite slide_succ. cbv zeta. cbn [snd]. unfold advance.
  pose proof (u8_range (lb + 1)) as Hu.
  destruct (u8 (pos + 1) mod N_PACKED_CHARS =? 0); [|apply IH].
  destruct (Z.gtb_spec (u8 (lb + 1)) (Z.of_nat (length seq))); [lia|].
  destruct (Z.eqb_spec (u8 (lb + 1)) (Z.of_nat (length seq))); [lia|].
  rewrite index_some by lia. rewrite bind_some. cbn [snd]. apply IH.
Qed.

(** On a sequence of zero words every key of the loop is zero. *)
Lemma slide_zero (seq : SequenceT) (n : nat) :
  Forall (eq 0) seq ->
  forall j last_block last_block_pos,
  Forall (eq 0) (writes (fst (slide seq n j 0 0 last_block last_block_pos))).
Proof.
  intros Hz. induction n as [|n IH]; intros j lb pos; [constructor|].
  rewrite slide_succ. cbv zeta. cbn [fst writes].
  assert (Hk : next_key 0 0 pos = 0).
  { unfold next_key. rewrite !Z.shiftr_0_l, Z.land_0_l, Z.shiftl_0_l. reflexivity. }
  rewrite Hk. constructor; [reflexivity|].
  unfold advance.
  repeat match goal with
         | |- context [if ?c then _ else _] => destruct c
         end; try apply IH; try constructor.
  unfold index, bind. cbn [fst snd].
  destruct (u8 (lb + 1) <? 0); [constructor|].
  destruct (nth_error seq (Z.to_nat (u8 (lb + 1)))) as [w|] eqn:Ew.
  - apply nth_error_In in Ew. rewrite Forall_forall in Hz.
    rewrite <- (Hz w Ew). cbn [writes app fst]. apply IH.
  - constructor.
Qed.

(** *** Keys of a well-formed sequence *)

(** On every well-formed sequence of [L] characters with
    [N_K <= L <= 256 * N_PACKED_CHARS], [computeKeys<SCALAR>] called with
    [key_count = L - N_K + 1] is not cut short, stores [L - N_K + 1] keys,
    and the key at position [j] is the sum of
    [character (j + i) * 2 ^ (i * N_BITS)] over the [N_K] characters of
    window [j]. *)
Theorem computeKeys_window_keys (seq : SequenceT) (L : Z) :
  well_formed seq L ->
  N_K <= L <= N_PACKED_CHARS * 256 ->
  snd (computeKeys seq (L - N_K + 1)) <> None /\
  Z.of_nat (length (written (computeKeys seq (L - N_K + 1)))) = L - N_K + 1 /\
  forall j, 0 <= j < L - N_K + 1 ->
    nth (Z.to_nat j) (written (computeKeys seq (L - N_K + 1))) 0 =
    window_key seq j.
Proof.
  intros W HL.
  pose proof (computeKeys_writes_windows seq L W HL) as E.
  destruct (well_formed_size seq L W) as [Hs _];
    [constants_to_numbers; lia|].
  constants_to_numbers.
  split.
  { apply (computeKeys_contained seq (L - 21 + 1)). change DIV with 4. lia. }
  rewrite E. split.
  - rewrite length_map. unfold positions. rewrite zseq_length. lia.
  - intros j Hj.
    rewrite (nth_indep _ 0 (window_key seq 0))
      by (rewrite length_map; unfold positions; rewrite zseq_length; lia).
    rewrite (map_nth (window_key seq)). f_equal.
    unfold positions. rewrite zseq_nth by lia. lia.
Qed.

(** Five words of five characters each: 25 characters, 5 windows. *)
Definition sample_sequence : SequenceT := [1; 2; 3; 4; 5].

Lemma sample_sequence_well_formed : well_formed sample_sequence 25.
Proof.
  unfold well_formed. split; [reflexivity|]. split.
  - repeat constructor; vm_compute; discriminate.
  - vm_compute. discriminate.
Qed.

Lemma computeKeys_window_keys_witness :
  snd (computeKeys sample_sequence (25 - N_K + 1)) <> None /\
  Z.of_nat (length (written (computeKeys sample_sequence (25 - N_K + 1))))
    = 25 - N_K + 1 /\
  forall j, 0 <= j < 25 - N_K + 1 ->
    nth (Z.to_nat j) (written (computeKeys sample_sequence (25 - N_K + 1))) 0 =
    window_key sample_sequence j.
Proof.
  apply (computeKeys_window_keys sample_sequence 25).
  - exact sample_sequence_well_formed.
  - vm_compute. split; discriminate.
Defined.

(** A sequence of 1281 characters in 257 words: character 0 is 1, every
    other character is 0. *)
Definition long_sequence : SequenceT := 1 :: repeat 0 256.

Lemma long_sequence_well_formed : well_formed long_sequence 1281.
Proof.
  unfold well_formed. split; [reflexivity|]. split.
  - unfold long_sequence. constructor; [vm_compute; split; discriminate|].
    apply Forall_forall. intros x Hx. apply repeat_spec in Hx. subst x.
    vm_compute. split; discriminate.
  - intros _. vm_compute. reflexivity.
Qed.

(** C1, beyond 256 words. The word cursor [last_block] is a [uint8_t]:
    after word 255 it wraps to 0. On the well-formed sequence
    [long_sequence] (1281 characters, [key_count = 1261]) the key of
    window 1260 is computed from character 0 instead of character 1280:
    the code stores [2 ^ 60] where the window's key is 0. *)
Theorem computeKeys_cursor_wraps :
  well_formed long_sequence 1281 /\
  snd (computeKeys long_sequence (1281 - N_K + 1)) = Some Finished /\
  nth 1260 (written (computeKeys long_sequence (1281 - N_K + 1))) 0 = 2 ^ 60 /\
  window_key long_sequence 1260 = 0 /\
  nth 1260 (written (computeKeys long_sequence (1281 - N_K + 1))) 0 <>
  window_key long_sequence 1260.
Proof.
  split; [exact long_sequence_well_formed|].
  assert (E1 : nth 1260 (written (computeKeys long_sequence (1281 - N_K + 1))) 0
               = 2 ^ 60) by (vm_compute; reflexivity).
  assert (E2 : window_key long_sequence 1260 = 0) by (vm_compute; reflexivity).
  split; [vm_compute; reflexivity|].
  rewrite E1, E2. repeat split. vm_compute. discriminate.
Qed.

(** C2, as the code has it. For every well-formed sequence of [L]
    characters with [N_K <= L], the run with the key count the driver
    passes is not cut short and stores exactly [L - N_K + 1] keys; if all
    words are zero, all keys are zero. *)
Theorem computeKeys_key_count (seq : SequenceT) (L : Z) :
  well_formed seq L ->
  N_K <= L <= 65535 ->
  snd (computeKeys seq (unit_key_count N_K L)) <> None /\
  Z.of_nat (length (written (computeKeys seq (unit_key_count N_K L))))
    = L - N_K + 1 /\
  (Forall (eq 0) seq ->
   Forall (eq 0) (written (computeKeys seq (unit_key_count N_K L)))).
Proof.
  intros W HL.
  assert (Ek : unit_key_count N_K L = L - N_K + 1).
  { unfold unit_key_count. apply u16_small. change N_K with 21 in *. lia. }
  rewrite Ek.
  destruct (well_formed_size seq L W) as [Hs Hs'];
    [change N_K with 21 in *; lia|].
  constants_to_numbers.
  assert (H5 : DIV < Z.of_nat (length seq)) by (change DIV with 4; lia).
  pose proof (computeKeys_contained seq (L - 21 + 1) H5) as (C1 & _ & _ & _ & C5).
  split; [exact C1|]. split.
  - destruct (Z.le_gt_cases L (5 * 256)) as [Hle|Hgt].
    + pose proof (computeKeys_writes_windows seq L W) as Ew.
      constants_to_numbers. rewrite Ew by lia.
      rewrite length_map. unfold positions. rewrite zseq_length.
      constants_to_numbers. lia.
    + unfold written. rewrite C5; [lia|].
      destruct (five_words seq H5) as (w0 & w1 & w2 & w3 & w4 & rest & E).
      rewrite E at 1. rewrite computeKeys_five. cbv zeta. cbn [snd].
      rewrite <- E. apply slide_finishes_long. lia.
  - intros Hz.
    destruct (five_words seq H5) as (w0 & w1 & w2 & w3 & w4 & rest & E).
    unfold written. rewrite E at 1. rewrite computeKeys_five. cbv zeta.
    cbn [fst]. rewrite writes_app. cbn [writes app]. rewrite <- E.
    assert (Hw : w0 = 0 /\ w1 = 0 /\ w2 = 0 /\ w3 = 0 /\ w4 = 0).
    { rewrite E in Hz. rewrite Forall_forall in Hz.
      repeat split; symmetry; apply Hz; cbn; tauto. }
    destruct Hw as (-> & -> & -> & -> & ->).
    change (seed_of 0 0 0 0 0) with 0.
    constructor; [reflexivity|]. apply slide_zero. exact Hz.
Qed.

(** Five zero words: 25 characters. *)
Definition zero_sequence : SequenceT := repeat 0 5.

Lemma computeKeys_key_count_witness :
  snd (computeKeys zero_sequence (unit_key_count N_K 25)) <> None /\
  Z.of_nat (length (written (computeKeys zero_sequence (unit_key_count N_K 25))))
    = 25 - N_K + 1 /\
  Forall (eq 0) (written (computeKeys zero_sequence (unit_key_count N_K 25))).
Proof.
  assert (W : well_formed zero_sequence 25).
  { unfold well_formed. split; [reflexivity|]. split.
    - repeat constructor; vm_compute; discriminate.
    - vm_compute. discriminate. }
  assert (B : N_K <= 25 <= 65535) by (vm_compute; split; discriminate).
  destruct (computeKeys_key_count zero_sequence 25 W B) as (H1 & H2 & H3).
  split; [exact H1|]. split; [exact H2|].
  apply H3. repeat constructor.
Defined.

(** C2 fails as stated for [L < N_K]: the seed key is stored before the
    key count is looked at. For [L = 20] the driver passes key count 0
    and a vector that holds five zero words gets one key, not
    [max (L - N_K + 1) 0 = 0]; on the four words a 20-character
    sequence needs, the seed computation reads [seq[4]]; and for
    [L = 19] the key count passed is 65535. *)
Lemma computeKeys_stores_seed_for_count_zero :
  unit_key_count N_K 20 = 0 /\
  written (computeKeys [0; 0; 0; 0; 0] (unit_key_count N_K 20)) = [0] /\
  Z.of_nat (length (written (computeKeys [0; 0; 0; 0; 0] (unit_key_count N_K 20))))
    <> Z.max (20 - N_K + 1) 0 /\
  well_formed [0; 0; 0; 0] 20 /\
  computeKeys [0; 0; 0; 0] (unit_key_count N_K 20) =
    ([Read 0; Read 1; Read 2; Read 3; Read 4], None) /\
  unit_key_count N_K 19 = 65535.
Proof.
  split; [reflexivity|]. split; [reflexivity|].
  split; [vm_compute; discriminate|].
  split; [|split; reflexivity].
  unfold well_formed. split; [reflexivity|]. split.
  - repeat constructor; vm_compute; discriminate.
  - vm_compute. discriminate.
Qed.

(** *** Offsets *)

Lemma offsets_after_length K prev lengths :
  length (offsets_after K prev lengths) = length lengths.
Proof.
  revert prev; induction lengths as [|l ls IH]; intros prev; cbn;
    [|rewrite IH]; reflexivity.
Qed.

Lemma offsets_after_nth K lengths : forall prev i,
  0 <= prev < 2 ^ 64 -> (i <= length lengths)%nat ->
  nth i (prev :: offsets_after K prev lengths) 0 =
  u64 (prev + key_counts_sum K (firstn i lengths)).
Proof.
  induction lengths as [|l ls IH]; intros prev i Hp Hi.
  - destruct i; [|cbn in Hi; lia]. cbn. rewrite Z.add_0_r.
    symmetry. apply u64_small. exact Hp.
  - destruct i as [|i].
    + cbn. rewrite Z.add_0_r. symmetry. apply u64_small. exact Hp.
    + change (nth (S i) (prev :: offsets_after K prev (l :: ls)) 0) with
        (nth i (u64 (prev + u64 (l - K + 1))
                  :: offsets_after K (u64 (prev + u64 (l - K + 1))) ls) 0).
      change (key_counts_sum K (firstn (S i) (l :: ls))) with
        ((l - K + 1) + key_counts_sum K (firstn i ls)).
      rewrite IH.
      * unfold u64, to_unsigned.
        rewrite Zplus_mod_idemp_r, Zplus_mod_idemp_l. f_equal. ring.
      * unfold u64, to_unsigned. apply Z.mod_pos_bound. reflexivity.
      * cbn in Hi. lia.
Qed.

Lemma clamped_sum_firstn K lengths : forall i,
  0 <= clamped_sum K (firstn i lengths) /\
  clamped_sum K (firstn i lengths) <= clamped_sum K (firstn (S i) lengths) /\
  clamped_sum K (firstn i lengths) <= clamped_sum K lengths.
Proof.
  assert (Hc : forall x xs,
            clamped_sum K (x :: xs) = Z.max (x - K + 1) 0 + clamped_sum K xs)
    by reflexivity.
  induction lengths as [|l ls IH]; intros i.
  - destruct i; cbn; lia.
  - destruct i as [|i].
    + specialize (IH 0%nat).
      change (firstn 0 (l :: ls)) with (@nil Z).
      change (firstn 1 (l :: ls)) with (l :: firstn 0 ls).
      change (firstn 0 ls) with (@nil Z) in *.
      rewrite !Hc. change (clamped_sum K []) with 0 in *. lia.
    + specialize (IH i).
      change (firstn (S i) (l :: ls)) with (l :: firstn i ls).
      change (firstn (S (S i)) (l :: ls)) with (l :: firstn (S i) ls).
      rewrite !Hc. lia.
Qed.

Lemma key_counts_sum_clamped K lengths :
  Forall (fun l => K - 1 <= l) lengths ->
  key_counts_sum K lengths = clamped_sum K lengths.
Proof.
  induction 1 as [|l ls Hl _ IH]; cbn; [reflexivity|].
  fold (key_counts_sum K ls). fold (clamped_sum K ls). lia.
Qed.

Lemma Forall_firstn_keep {A} (P : A -> Prop) (l : list A) (i : nat) :
  Forall P l -> Forall P (firstn i l).
Proof.
  intros H. revert i. induction H as [|x l Hx _ IH]; intros [|i]; cbn;
    constructor; auto.
Qed.

(** C3, as the code has it. [offsets[0] = 0] and [offsets[i]] is the sum
    of [length[j] - K + 1] over [j < i], reduced modulo [2 ^ 64]: the
    count of a unit is not clamped at zero. When every length is at least
    [K - 1] and the total fits 64 bits, every unit contributes
    [max (length - K + 1) 0] keys and the offsets never decrease. For
    lengths [10, 5, 2] and [K = 3] the offsets are [0, 8, 11, 11]. *)
Theorem prefix_offsets_spec (K : Z) (lengths : list Z) :
  length (prefix_offsets K lengths) = S (length lengths) /\
  nth 0 (prefix_offsets K lengths) 0 = 0 /\
  (forall i, (i <= length lengths)%nat ->
     nth i (prefix_offsets K lengths) 0 =
     u64 (key_counts_sum K (firstn i lengths))) /\
  (Forall (fun l => K - 1 <= l) lengths ->
   key_counts_sum K lengths < 2 ^ 64 ->
   (forall i, (i <= length lengths)%nat ->
      nth i (prefix_offsets K lengths) 0 = clamped_sum K (firstn i lengths)) /\
   (forall i, (i < length lengths)%nat ->
      nth i (prefix_offsets K lengths) 0 <=
      nth (S i) (prefix_offsets K lengths) 0)) /\
  prefix_offsets 3 [10; 5; 2] = [0; 8; 11; 11].
Proof.
  assert (N : forall i, (i <= length lengths)%nat ->
            nth i (prefix_offsets K lengths) 0 =
            u64 (key_counts_sum K (firstn i lengths))).
  { intros i Hi. unfold prefix_offsets.
    rewrite offsets_after_nth by (cbn; lia). reflexivity. }
  split; [cbn; rewrite offsets_after_length; reflexivity|].
  split; [reflexivity|]. split; [exact N|]. split; [|reflexivity].
  intros HF Hsum.
  assert (C : forall i, (i <= length lengths)%nat ->
            nth i (prefix_offsets K lengths) 0 =
            clamped_sum K (firstn i lengths)).
  { intros i Hi. rewrite N by assumption.
    rewrite key_counts_sum_clamped by (apply Forall_firstn_keep; exact HF).
    rewrite key_counts_sum_clamped in Hsum by exact HF.
    apply u64_small.
    destruct (clamped_sum_firstn K lengths i) as (H0 & _ & H1). lia. }
  split; [exact C|].
  intros i Hi. rewrite !C by lia.
  apply (clamped_sum_firstn K lengths i).
Qed.

Lemma prefix_offsets_spec_witness :
  (forall i, (i <= 3)%nat ->
     nth i (prefix_offsets 3 [10; 5; 2]) 0 = clamped_sum 3 (firstn i [10; 5; 2])) /\
  (forall i, (i < 3)%nat ->
     nth i (prefix_offsets 3 [10; 5; 2]) 0 <=
     nth (S i) (prefix_offsets 3 [10; 5; 2]) 0).
Proof.
  apply (prefix_offsets_spec 3 [10; 5; 2]).
  - repeat constructor; vm_compute; discriminate.
  - vm_compute. reflexivity.
Defined.

(** C3 fails as stated: a unit shorter than [K - 1] makes the next offset
    wrap. For lengths [10, 1] and [K = 3] the offsets are [0, 8, 7], and
    for the single length 1 the second offset is [2 ^ 64 - 1], where no
    key is due. *)
Lemma prefix_offsets_underflow :
  prefix_offsets 3 [10; 1] = [0; 8; 7] /\
  clamped_sum 3 [10; 1] = 8 /\
  nth 2 (prefix_offsets 3 [10; 1]) 0 < nth 1 (prefix_offsets 3 [10; 1]) 0 /\
  prefix_offsets 3 [1] = [0; 2 ^ 64 - 1] /\
  nth 1 (prefix_offsets 3 [1]) 0 <> clamped_sum 3 [1] /\
  unit_key_count 3 1 = 65535.
Proof.
  repeat split; try reflexivity. vm_compute. discriminate.
Qed.

(** *** Keys have [K_BITS] significant bits *)

Lemma lor_below (a b n : Z) :
  0 <= a < 2 ^ n -> 0 <= b < 2 ^ n -> 0 <= Z.lor a b < 2 ^ n.
Proof.
  intros Ha Hb.
  assert (H0 : 0 <= Z.lor a b) by (apply Z.lor_nonneg; lia).
  split; [exact H0|].
  destruct (Z.eq_dec a 0) as [->|Na]; [rewrite Z.lor_0_l; lia|].
  destruct (Z.eq_dec b 0) as [->|Nb]; [rewrite Z.lor_0_r; lia|].
  assert (Hn : Z.lor a b <> 0).
  { intros E. apply Z.lor_eq_0_iff in E. lia. }
  apply Z.log2_lt_pow2; [lia|].
  rewrite Z.log2_lor by lia.
  apply Z.max_lub_lt; apply Z.log2_lt_pow2; lia.
Qed.

Lemma shifted_word_below (w n : Z) :
  0 <= w <= WORD_MAX -> 0 <= n <= 45 ->
  0 <= u64 (Z.shiftl w n) < 2 ^ 63.
Proof.
  change WORD_MAX with 65535. intros Hw Hn.
  assert (Hs : 0 <= Z.shiftl w n < 2 ^ 61).
  { rewrite Z.shiftl_mul_pow2 by lia.
    assert (0 < 2 ^ n) by (apply Z.pow_pos_nonneg; lia).
    assert (2 ^ n <= 2 ^ 45) by (apply Z.pow_le_mono_r; lia).
    change (2 ^ 61) with (65536 * 2 ^ 45). nia. }
  rewrite u64_small; change (2 ^ 61) with 2305843009213693952 in Hs;
    change (2 ^ 63) with 9223372036854775808;
    change (2 ^ 64) with 18446744073709551616; lia.
Qed.

Lemma top_character_below (x : Z) :
  0 <= u64 (Z.shiftl (Z.land x 7) 60) < 2 ^ 63.
Proof.
  rewrite land_7. pose proof (Z.mod_pos_bound x 8 eq_refl) as H.
  rewrite Z.shiftl_mul_pow2 by lia.
  rewrite u64_small; change (2 ^ 60) with 1152921504606846976;
    change (2 ^ 63) with 9223372036854775808;
    change (2 ^ 64) with 18446744073709551616; lia.
Qed.

Lemma seed_of_below (w0 w1 w2 w3 w4 : Z) :
  0 <= w0 <= WORD_MAX -> 0 <= w1 <= WORD_MAX ->
  0 <= w2 <= WORD_MAX -> 0 <= w3 <= WORD_MAX ->
  0 <= seed_of w0 w1 w2 w3 w4 < 2 ^ 63.
Proof.
  intros H0 H1 H2 H3. unfold seed_of. constants_to_numbers.
  repeat apply lor_below;
    try (apply shifted_word_below; [assumption|lia]);
    try apply top_character_below.
  change (2 ^ 63) with 9223372036854775808. lia.
Qed.

Lemma next_key_below (key block pos : Z) :
  0 <= key < 2 ^ 63 -> 0 <= next_key key block pos < 2 ^ 63.
Proof.
  intros Hk. unfold next_key. constants_to_numbers.
  change ((21 - 1) * 3) with 60.
  apply lor_below; [|apply top_character_below].
  rewrite Z.shiftr_div_pow2 by lia. change (2 ^ 3) with 8.
  split; [apply Z.div_pos; lia|].
  apply Z.div_lt_upper_bound; [lia|].
  change (2 ^ 63) with 9223372036854775808 in *. lia.
Qed.

Lemma slide_keys_below (seq : SequenceT) (n : nat) :
  forall j key block last_block last_block_pos,
  0 <= key < 2 ^ 63 ->
  Forall (fun k => 0 <= k < 2 ^ 63)
         (writes (fst (slide seq n j key block last_block last_block_pos))).
Proof.
  induction n as [|n IH]; intros j key block lb pos Hk; [constructor|].
  rewrite slide_succ. cbv zeta. cbn [fst writes].
  pose proof (next_key_below key block pos Hk) as Hn.
  constructor; [exact Hn|].
  unfold advance.
  repeat match goal with
         | |- context [if ?c then _ else _] => destruct c
         end; try (apply IH; exact Hn); try constructor.
  unfold index, bind. cbn [fst snd].
  destruct (u8 (lb + 1) <? 0); [constructor|].
  destruct (nth_error seq (Z.to_nat (u8 (lb + 1)))) as [w|];
    [|constructor].
  cbn [writes app fst]. apply IH. exact Hn.
Qed.

(** Every key [computeKeys<SCALAR>] stores is a value of [K_BITS = 63]
    bits, with all higher bits zero: for every vector of 16-bit words
    (padding bits set or not, long enough or not) and every key count. *)
Theorem computeKeys_keys_below (seq : SequenceT) (key_count : Z) :
  Forall (fun w => 0 <= w <= WORD_MAX) seq ->
  Forall (fun k => 0 <= k < 2 ^ K_BITS) (written (computeKeys seq key_count)).
Proof.
  intros Hw. change K_BITS with 63.
  destruct (Z.lt_ge_cases DIV (Z.of_nat (length seq))) as [H5|Hshort].
  - destruct (five_words seq H5) as (w0 & w1 & w2 & w3 & w4 & rest & E).
    assert (Hseed : 0 <= seed_of w0 w1 w2 w3 w4 < 2 ^ 63).
    { rewrite E in Hw.
      inversion Hw as [|? ? B0 Hw1]; subst.
      inversion Hw1 as [|? ? B1 Hw2]; subst.
      inversion Hw2 as [|? ? B2 Hw3]; subst.
      inversion Hw3 as [|? ? B3 Hw4]; subst.
      apply seed_of_below; assumption. }
    unfold written. rewrite E at 1. rewrite computeKeys_five. cbv zeta.
    cbn [fst]. rewrite writes_app. cbn [writes app].
    constructor; [exact Hseed|]. apply slide_keys_below. exact Hseed.
  - change DIV with 4 in Hshort.
    destruct seq as [|w0 [|w1 [|w2 [|w3 [|w4 rest]]]]];
      try (cbn in Hshort; lia); constructor.
Qed.

Lemma computeKeys_keys_below_witness :
  Forall (fun k => 0 <= k < 2 ^ K_BITS)
         (written (computeKeys [65535; 65535; 65535; 65535; 65535; 65535] 8)).
Proof.
  apply (computeKeys_keys_below [65535; 65535; 65535; 65535; 65535; 65535] 8).
  repeat constructor; vm_compute; discriminate.
Defined.

(** *** [generateStrings] *)

(** [v[idx] = w] on a vector; every use below has [idx] inside the
    vector, outside it the list is left as it is. *)
Fixpoint assign (v : list Z) (idx : nat) (w : Z) : list Z :=
  match v, idx with
  | [], _ => []
  | _ :: t, O => w :: t
  | h :: t, S i => h :: assign t i w
  end.

Section Generate.

(** The values [distribution(generator)] returns, in the order of the
    calls: the engine is a parameter of the model. *)
Variable rand : nat -> Z.

(** [for (j = 0; j < lengths[i]; j += N_PACKED_CHARS)
       { read[idx] = distribution(generator) & PADDING_MASK; ++idx; }]
    from the state [(j, idx, read)] after [g] calls of the generator;
    [None] when [fuel] iterations did not reach the end of the loop. *)
Fixpoint fill (fuel : nat) (L j idx : Z) (read : SequenceT) (g : nat)
  : option (SequenceT * Z * nat) :=
  match fuel with
  | O => if j <? L then None else Some (read, idx, g)
  | S fuel' =>
      if j <? L then
        let read := assign read (Z.to_nat idx) (Z.land (rand g) PADDING_MASK) in
        fill fuel' L (u16 (j + N_PACKED_CHARS)) (idx + 1) read (S g)
      else Some (read, idx, g)
  end.

(** The body of the outer loop of [generateStrings] for a read of [L]
    characters: allocate, fill, mask the last word. *)
Definition generateRead (L : Z) (g : nat) : option (SequenceT * nat) :=
  let read :=
    repeat 0 (Z.to_nat ((L + N_PACKED_CHARS - 1) / N_PACKED_CHARS)) in
  match fill (Z.to_nat L) L 0 0 read g with
  | None => None
  | Some (read, idx, g') =>
      if L mod N_PACKED_CHARS >? 0 then
        let keep_mask :=
          Z.shiftr WORD_MAX (WORD_BITS - (L mod N_PACKED_CHARS) * N_BITS) in
        Some (assign read (Z.to_nat (idx - 1))
                     (Z.land (nth (Z.to_nat (idx - 1)) read 0) keep_mask), g')
      else Some (read, g')
  end.

(** [generateStrings(lengths, reads)]: one read per length, the generator
    running on from read to read. *)
Fixpoint generateStrings (lengths : list Z) (g : nat)
  : option (list SequenceT) :=
  match lengths with
  | [] => Some []
  | L :: rest =>
      match generateRead L g with
      | None => None
      | Some (read, g') =>
          match generateStrings rest g' with
          | None => None
          | Some reads => Some (read :: reads)
          end
      end
  end.

End Generate.

Lemma assign_length (v : list Z) : forall idx w,
  length (assign v idx w) = length v.
Proof.
  induction v as [|h t IH]; intros [|i] w; cbn; try rewrite IH; reflexivity.
Qed.

Lemma assign_Forall (P : Z -> Prop) (v : list Z) : forall idx w,
  Forall P v -> P w -> Forall P (assign v idx w).
Proof.
  induction v as [|h t IH]; intros [|i] w Hv Hw; cbn; inversion Hv; subst;
    constructor; auto.
Qed.

Lemma assign_last (v : list Z) : forall idx w d,
  length v = S idx -> last (assign v idx w) d = w.
Proof.
  induction v as [|h t IH]; intros [|i] w d Hl; cbn in Hl; try lia.
  - destruct t; [reflexivity|cbn in Hl; lia].
  - cbn [assign]. destruct t as [|h' t']; [cbn in Hl; lia|].
    specialize (IH i w d ltac:(cbn in *; lia)).
    destruct i; cbn in *; exact IH.
Qed.

Lemma land_padding_mask (x : Z) : 0 <= Z.land x PADDING_MASK <= PADDING_MASK.
Proof.
  assert (E : Z.land x PADDING_MASK = x mod 2 ^ 15).
  { change PADDING_MASK with (Z.ones 15). apply Z.land_ones. lia. }
  rewrite E.
  pose proof (Z.mod_pos_bound x (2 ^ 15) eq_refl).
  change PADDING_MASK with (2 ^ 15 - 1). lia.
Qed.

Section GenerateProofs.
Variable rand : nat -> Z.

Lemma fill_spec (fuel : nat) : forall L j idx read g,
  L <= 65535 -> 0 <= idx -> j = N_PACKED_CHARS * idx ->
  N_PACKED_CHARS * idx < L + N_PACKED_CHARS \/ idx = 0 ->
  L - j <= Z.of_nat fuel ->
  Forall (fun w => 0 <= w <= PADDING_MASK) read ->
  exists read' g',
    fill rand fuel L j idx read g
      = Some (read', Z.max idx ((L + N_PACKED_CHARS - 1) / N_PACKED_CHARS), g') /\
    length read' = length read /\
    Forall (fun w => 0 <= w <= PADDING_MASK) read'.
Proof.
  change N_PACKED_CHARS with 5.
  induction fuel as [|fuel IH]; intros L j idx read g HL Hi Hj Hinv Hf Hr.
  - cbn [fill]. destruct (Z.ltb_spec j L); [lia|].
    exists read, g. split; [|split; [reflexivity|assumption]].
    do 3 f_equal. Z.div_mod_to_equations. lia.
  - cbn [fill]. change N_PACKED_CHARS with 5.
    destruct (Z.ltb_spec j L) as [Hlt|Hge].
    + rewrite u16_small by lia.
      destruct (IH L (j + 5) (idx + 1)
                   (assign read (Z.to_nat idx) (Z.land (rand g) PADDING_MASK))
                   (S g)) as (read' & g' & E & El & Ef);
        try lia.
      { apply assign_Forall; [assumption|apply land_padding_mask]. }
      exists read', g'. rewrite E. split; [|split; [|assumption]].
      * do 3 f_equal. Z.div_mod_to_equations. lia.
      * rewrite El. apply assign_length.
    + exists read, g. split; [|split; [reflexivity|assumption]].
      do 3 f_equal. Z.div_mod_to_equations. lia.
Qed.

Lemma keep_mask_bound (r x : Z) :
  0 < r < N_PACKED_CHARS -> 0 <= x ->
  0 <= Z.land x (Z.shiftr WORD_MAX (WORD_BITS - r * N_BITS)) <= x /\
  Z.land x (Z.shiftr WORD_MAX (WORD_BITS - r * N_BITS)) < 2 ^ (r * N_BITS).
Proof.
  change N_PACKED_CHARS with 5. intros Hr Hx.
  assert (E : Z.shiftr WORD_MAX (WORD_BITS - r * N_BITS) = Z.ones (r * N_BITS)).
  { assert (C : r = 1 \/ r = 2 \/ r = 3 \/ r = 4) by lia.
    destruct C as [-> | [-> | [-> | ->]]]; reflexivity. }
  rewrite E. change N_BITS with 3. rewrite Z.land_ones by lia.
  assert (0 < 2 ^ (r * 3)) by (apply Z.pow_pos_nonneg; lia).
  pose proof (Z.mod_pos_bound x (2 ^ (r * 3)) ltac:(lia)).
  pose proof (Z.mod_le x (2 ^ (r * 3)) Hx ltac:(lia)). lia.
Qed.

Lemma generateRead_spec (L : Z) (g : nat) :
  0 <= L <= 65535 ->
  exists read g', generateRead rand L g = Some (read, g') /\ well_formed read L.
Proof.
  intros HL. unfold generateRead.
  set (n := (L + N_PACKED_CHARS - 1) / N_PACKED_CHARS).
  assert (Hn : 0 <= n /\ (0 < L -> 1 <= n)).
  { unfold n. change N_PACKED_CHARS with 5. Z.div_mod_to_equations. lia. }
  destruct (fill_spec (Z.to_nat L) L 0 0 (repeat 0 (Z.to_nat n)) g)
    as (read & g' & E & El & Ef); try lia.
  { apply Forall_forall. intros x Hx. apply repeat_spec in Hx. subst x.
    change PADDING_MASK with 32767. lia. }
  rewrite E. fold n. rewrite Z.max_r by lia.
  rewrite repeat_length in El.
  destruct (Z.gtb_spec (L mod N_PACKED_CHARS) 0) as [Hr|Hr].
  - pose proof (Z.mod_pos_bound L N_PACKED_CHARS eq_refl) as Hm.
    assert (HL0 : 0 < L).
    { destruct (Z.eq_dec L 0) as [->|]; [cbn in Hr; lia|lia]. }
    assert (Hnth : 0 <= nth (Z.to_nat (n - 1)) read 0 <= PADDING_MASK).
    { rewrite Forall_forall in Ef. apply Ef. apply nth_In. lia. }
    destruct (keep_mask_bound (L mod N_PACKED_CHARS)
                (nth (Z.to_nat (n - 1)) read 0)) as [Hk1 Hk2]; try lia.
    eexists _, g'. split; [reflexivity|].
    unfold well_formed. split; [|split].
    + rewrite assign_length, El. fold n. lia.
    + apply assign_Forall; [assumption|]. cbv beta. lia.
    + intros _. rewrite assign_last by (rewrite El; lia). exact Hk2.
  - exists read, g'. split; [reflexivity|].
    unfold well_formed. split; [|split].
    + rewrite El. fold n. lia.
    + assumption.
    + intros. lia.
Qed.

(** For every generator, [generateStrings] builds for every list of
    lengths (values of [ReadLengthType]) one read per length, each a
    well-formed packed sequence of that length. *)
Theorem generateStrings_well_formed (lengths : list Z) (g : nat) :
  Forall (fun L => 0 <= L <= 65535) lengths ->
  exists reads,
    generateStrings rand lengths g = Some reads /\
    Forall2 well_formed reads lengths.
Proof.
  intros H. revert g.
  induction H as [|L rest HL _ IH]; intros g.
  - exists []. split; [reflexivity|constructor].
  - cbn [generateStrings].
    destruct (generateRead_spec L g HL) as (read & g' & E & W).
    rewrite E. destruct (IH g') as (reads & Er & Wr). rewrite Er.
    exists (read :: reads). split; [reflexivity|constructor; assumption].
Qed.

End GenerateProofs.

Lemma generateStrings_well_formed_witness :
  exists reads,
    generateStrings (fun k => 40000 + Z.of_nat k) [7; 0; 100] 0 = Some reads /\
    Forall2 well_formed reads [7; 0; 100].
Proof.
  apply (generateStrings_well_formed (fun k => 40000 + Z.of_nat k) [7; 0; 100] 0).
  repeat constructor; vm_compute; discriminate.
Defined.

(** *** The bulk [computeKeys<SCALAR>] and the driver *)

(** The stores of one unit through [key_iter], which starts at
    [keys.begin() + pos]; [None] when a store falls behind the end of
    [keys]. *)
Fixpoint store_keys (keys : list Z) (pos : nat) (ks : list Z)
  : option (list Z) :=
  match ks with
  | [] => Some keys
  | k :: ks' =>
      if (pos <? length keys)%nat then store_keys (assign keys pos k) (S pos) ks'
      else None
  end.

(** [iter = keys.begin() + offsets[i];
     computeKeys<SCALAR>(seqs[i], lengths[i] - N_K + 1, iter);] *)
Definition run_unit (keys : list Z) (seq : SequenceT) (l offset : Z)
  : option (list Z) :=
  let run := computeKeys seq (unit_key_count N_K l) in
  match store_keys keys (Z.to_nat offset) (written run) with
  | None => None
  | Some keys' =>
      match snd run with
      | None => None
      | Some _ => Some keys'
      end
  end.

(** [for (i = 0; i < N_R; ++i) { ... }] of the bulk [computeKeys<SCALAR>]
    in the serial build, with [n] iterations left. *)
Fixpoint bulk_loop (n i : nat) (seqs : list SequenceT) (lengths offsets : list Z)
    (keys : list Z) : option (list Z) :=
  match n with
  | O => Some keys
  | S n' =>
      match nth_error seqs i, nth_error lengths i, nth_error offsets i with
      | Some seq, Some l, Some offset =>
          match run_unit keys seq l offset with
          | None => None
          | Some keys' => bulk_loop n' (S i) seqs lengths offsets keys'
          end
      | _, _, _ => None
      end
  end.

Definition computeKeys_bulk (N_R : nat) (seqs : list SequenceT)
    (lengths offsets : list Z) (keys : list Z) : option (list Z) :=
  bulk_loop N_R 0 seqs lengths offsets keys.

(** [main] from the prefix sum on: offsets, [total = offsets[N_R]], the
    key buffer of [total] zeros, the bulk run. *)
Definition index_reads (seqs : list SequenceT) (lengths : list Z)
  : option (list Z) :=
  let N_R := length lengths in
  let offsets := prefix_offsets N_K lengths in
  let total := nth N_R offsets 0 in
  let keys := repeat 0 (Z.to_nat total) in
  computeKeys_bulk N_R seqs lengths offsets keys.

(** The keys of one unit, and of a list of units one after the other. *)
Definition unit_keys (u : SequenceT * Z) : list Z :=
  map (window_key (fst u)) (positions (snd u - N_K + 1)).

Definition all_keys (units : list (SequenceT * Z)) : list Z :=
  concat (map unit_keys units).

(** A unit the engine handles: a well-formed sequence of at least [N_K]
    characters in at most 256 words. *)
Definition good_unit (u : SequenceT * Z) : Prop :=
  well_formed (fst u) (snd u) /\ N_K <= snd u <= N_PACKED_CHARS * 256.

Lemma assign_middle (done : list Z) : forall old rest k,
  assign (done ++ old :: rest) (length done) k = done ++ k :: rest.
Proof.
  induction done as [|d done IH]; intros old rest k; cbn; [|rewrite IH];
    reflexivity.
Qed.

Lemma store_keys_middle (ks : list Z) : forall done old rest,
  length old = length ks ->
  store_keys (done ++ old ++ rest) (length done) ks = Some (done ++ ks ++ rest).
Proof.
  induction ks as [|k ks IH]; intros done old rest Hl.
  - destruct old; [reflexivity|discriminate].
  - destruct old as [|o old]; [discriminate|].
    cbn [store_keys app].
    assert (Hlt : (length done <? length (done ++ o :: old ++ rest))%nat = true).
    { apply Nat.ltb_lt. rewrite length_app. cbn. lia. }
    rewrite Hlt, assign_middle.
    replace (done ++ k :: old ++ rest) with ((done ++ [k]) ++ old ++ rest)
      by (rewrite <- app_assoc; reflexivity).
    replace (S (length done)) with (length (done ++ [k]))
      by (rewrite length_app; cbn; lia).
    rewrite IH by (cbn in Hl; lia).
    rewrite <- app_assoc. reflexivity.
Qed.

Lemma nth_error_cut {A} (l : list A) : forall i x,
  nth_error l i = Some x ->
  firstn (S i) l = firstn i l ++ [x] /\ skipn i l = x :: skipn (S i) l.
Proof.
  induction l as [|h t IH]; intros [|i] x H; cbn in H; try discriminate.
  - injection H as ->. split; reflexivity.
  - destruct (IH i x H) as [F S]. split.
    + cbn [firstn app]. cbn [firstn] in F. rewrite F. reflexivity.
    + cbn [skipn]. exact S.
Qed.

Lemma unit_keys_length (u : SequenceT * Z) :
  good_unit u -> Z.of_nat (length (unit_keys u)) = snd u - N_K + 1.
Proof.
  intros [_ H]. unfold unit_keys, positions.
  rewrite length_map, zseq_length. change N_K with 21 in *. lia.
Qed.

Lemma all_keys_app (us vs : list (SequenceT * Z)) :
  all_keys (us ++ vs) = all_keys us ++ all_keys vs.
Proof. unfold all_keys. rewrite map_app. apply concat_app. Qed.

(** The prefix sum of the lengths counts the keys of the units before. *)
Lemma key_counts_sum_all_keys (us : list (SequenceT * Z)) :
  Forall good_unit us ->
  key_counts_sum N_K (map snd us) = Z.of_nat (length (all_keys us)).
Proof.
  induction 1 as [|u us Hu _ IH]; [reflexivity|].
  change (all_keys (u :: us)) with (unit_keys u ++ all_keys us).
  rewrite length_app, Nat2Z.inj_add, <- IH, (unit_keys_length u Hu).
  reflexivity.
Qed.

Lemma run_unit_middle (u : SequenceT * Z) (done old rest : list Z) :
  good_unit u -> length old = length (unit_keys u) ->
  run_unit (done ++ old ++ rest) (fst u) (snd u) (Z.of_nat (length done))
  = Some (done ++ unit_keys u ++ rest).
Proof.
  intros [W HL] Hl. unfold run_unit.
  assert (Ek : unit_key_count N_K (snd u) = snd u - N_K + 1).
  { unfold unit_key_count. apply u16_small. constants_to_numbers. lia. }
  rewrite Ek.
  pose proof (computeKeys_writes_windows (fst u) (snd u) W HL) as Ew.
  fold (unit_keys u) in Ew. cbv zeta. rewrite Ew, Nat2Z.id.
  rewrite store_keys_middle by assumption.
  destruct (well_formed_size (fst u) (snd u) W) as [Hs _];
    [constants_to_numbers; lia|].
  assert (H5 : DIV < Z.of_nat (length (fst u)))
    by (constants_to_numbers; lia).
  destruct (computeKeys_contained (fst u) (snd u - N_K + 1) H5) as (C1 & _).
  destruct (snd (computeKeys (fst u) (snd u - N_K + 1))); [reflexivity|].
  contradiction.
Qed.

Section Bulk.
Variable units : list (SequenceT * Z).
Hypothesis units_good : Forall good_unit units.
Hypothesis total_fits : Z.of_nat (length (all_keys units)) < 2 ^ 64.

Lemma all_keys_firstn_le (i : nat) :
  (length (all_keys (firstn i units)) <= length (all_keys units))%nat.
Proof.
  rewrite <- (firstn_skipn i units) at 2.
  rewrite all_keys_app, length_app. lia.
Qed.

Lemma offsets_nth_error (i : nat) :
  (i <= length units)%nat ->
  nth_error (prefix_offsets N_K (map snd units)) i
  = Some (Z.of_nat (length (all_keys (firstn i units)))).
Proof.
  intros Hi.
  assert (Hlen : length (prefix_offsets N_K (map snd units)) = S (length units)).
  { cbn. rewrite offsets_after_length, length_map. reflexivity. }
  rewrite (nth_error_nth' _ 0) by lia. f_equal.
  unfold prefix_offsets.
  rewrite offsets_after_nth by (rewrite ?length_map; cbn; lia).
  rewrite firstn_map, key_counts_sum_all_keys
    by (apply Forall_firstn_keep; exact units_good).
  apply u64_small. pose proof (all_keys_firstn_le i). cbn. lia.
Qed.

Lemma bulk_loop_spec (n : nat) : forall i todo,
  (i + n = length units)%nat ->
  length todo = length (all_keys (skipn i units)) ->
  bulk_loop n i (map fst units) (map snd units)
            (prefix_offsets N_K (map snd units))
            (all_keys (firstn i units) ++ todo)
  = Some (all_keys units).
Proof.
  induction n as [|n IH]; intros i todo Hi Hl.
  - assert (i = length units) by lia. subst i.
    rewrite skipn_all in Hl. destruct todo; [|discriminate].
    rewrite firstn_all, app_nil_r. reflexivity.
  - cbn [bulk_loop].
    destruct (nth_error units i) as [u|] eqn:Eu;
      [|apply nth_error_None in Eu; lia].
    rewrite !nth_error_map, Eu. cbn [option_map].
    rewrite offsets_nth_error by lia.
    destruct (nth_error_cut units i u Eu) as [Ef Es].
    assert (Hu : good_unit u).
    { rewrite Forall_forall in units_good. apply units_good.
      eapply nth_error_In; eassumption. }
    rewrite Es in Hl.
    change (all_keys (u :: skipn (S i) units))
      with (unit_keys u ++ all_keys (skipn (S i) units)) in Hl.
    rewrite length_app in Hl.
    rewrite <- (firstn_skipn (length (unit_keys u)) todo).
    rewrite run_unit_middle;
      [|exact Hu|rewrite length_firstn; lia].
    replace (all_keys (firstn i units) ++ unit_keys u
               ++ skipn (length (unit_keys u)) todo)
      with (all_keys (firstn (S i) units) ++ skipn (length (unit_keys u)) todo).
    + apply IH; [lia|]. rewrite length_skipn. lia.
    + rewrite Ef, all_keys_app, <- app_assoc. f_equal.
      unfold all_keys at 1. cbn. rewrite app_nil_r. reflexivity.
Qed.

End Bulk.

Lemma index_reads_units (units : list (SequenceT * Z)) :
  Forall good_unit units ->
  Z.of_nat (length (all_keys units)) < 2 ^ 64 ->
  index_reads (map fst units) (map snd units) = Some (all_keys units).
Proof.
  intros Hg Ht. unfold index_reads, computeKeys_bulk. cbv zeta.
  rewrite length_map.
  pose proof (offsets_nth_error units Hg Ht (length units) (le_n _)) as Hn.
  rewrite firstn_all in Hn.
  rewrite (nth_error_nth _ _ 0 Hn), Nat2Z.id.
  pose proof (bulk_loop_spec units Hg Ht (length units) 0
                (repeat 0 (length (all_keys units)))) as B.
  cbn [firstn app skipn] in B. apply B; [lia|].
  rewrite repeat_length. reflexivity.
Qed.

Lemma parallel_units (seqs : list SequenceT) (lengths : list Z) :
  Forall2 well_formed seqs lengths ->
  Forall (fun L => N_K <= L <= N_PACKED_CHARS * 256) lengths ->
  map fst (combine seqs lengths) = seqs /\
  map snd (combine seqs lengths) = lengths /\
  Forall good_unit (combine seqs lengths).
Proof.
  induction 1 as [|seq L seqs lengths W _ IH]; intros HL.
  - repeat split; constructor.
  - inversion HL as [|? ? HL1 HL2]; subst.
    destruct (IH HL2) as (E1 & E2 & G). cbn [combine map fst snd].
    rewrite E1, E2. repeat split. constructor; [|exact G].
    split; assumption.
Qed.

(** The driver on well-formed reads of [N_K] to [256 * N_PACKED_CHARS]
    characters whose keys fit the 64-bit count: the bulk run reads and
    stores only inside its vectors, and the key buffer ends up as the
    window keys of the first read, then those of the second, and so on:
    every unit fills exactly its own range [offsets[i] .. offsets[i+1])
    and no unit overwrites another. *)
Theorem index_reads_all_keys (seqs : list SequenceT) (lengths : list Z) :
  Forall2 well_formed seqs lengths ->
  Forall (fun L => N_K <= L <= N_PACKED_CHARS * 256) lengths ->
  key_counts_sum N_K lengths < 2 ^ 64 ->
  index_reads seqs lengths = Some (all_keys (combine seqs lengths)).
Proof.
  intros W HL Ht.
  destruct (parallel_units seqs lengths W HL) as (E1 & E2 & G).
  pose proof (index_reads_units (combine seqs lengths) G) as R.
  rewrite <- key_counts_sum_all_keys, E1, E2 in R by exact G.
  exact (R Ht).
Qed.

Lemma index_reads_all_keys_witness :
  index_reads [sample_sequence; zero_sequence] [25; 22]
  = Some (all_keys (combine [sample_sequence; zero_sequence] [25; 22])).
Proof.
  apply (index_reads_all_keys [sample_sequence; zero_sequence] [25; 22]).
  - constructor; [exact sample_sequence_well_formed|].
    constructor; [|constructor].
    unfold well_formed. split; [reflexivity|]. split.
    + repeat constructor; vm_compute; discriminate.
    + intros _. vm_compute. reflexivity.
  - repeat constructor; vm_compute; discriminate.
  - vm_compute. reflexivity.
Defined.

(** From the generator to the keys: whatever values the generator
    returns, for lengths of [N_K] to [256 * N_PACKED_CHARS] characters
    (the driver's lengths are 80 to 120) [generateStrings] followed by the
    prefix sum and the bulk [computeKeys<SCALAR>] runs without a read or
    store outside a vector and leaves in the key buffer the window keys
    of the generated reads, read after read. *)
Theorem generate_then_index (rand : nat -> Z) (lengths : list Z) (g : nat) :
  Forall (fun L => N_K <= L <= N_PACKED_CHARS * 256) lengths ->
  key_counts_sum N_K lengths < 2 ^ 64 ->
  exists reads,
    generateStrings rand lengths g = Some reads /\
    Forall2 well_formed reads lengths /\
    index_reads reads lengths = Some (all_keys (combine reads lengths)).
Proof.
  intros HL Ht.
  assert (H16 : Forall (fun L => 0 <= L <= 65535) lengths).
  { eapply Forall_impl; [|exact HL]. cbv beta. constants_to_numbers. lia. }
  revert g. induction lengths as [|L rest IH] using list_ind; intros g.
  - exists []. repeat split; constructor.
  - pose proof HL as HL'. pose proof H16 as H16'.
    inversion HL' as [|? ? HL1 HL2]; inversion H16' as [|? ? H1 H2]; subst.
    cbn [generateStrings].
    destruct (generateRead_spec rand L g H1) as (read & g' & E & W).
    assert (Ht' : key_counts_sum N_K rest < 2 ^ 64).
    { change (key_counts_sum N_K (L :: rest))
        with ((L - N_K + 1) + key_counts_sum N_K rest) in Ht.
      constants_to_numbers. lia. }
    destruct (IH HL2 Ht' H2 g') as (reads & Er & Wr & _).
    rewrite E, Er. exists (read :: reads).
    assert (Wall : Forall2 well_formed (read :: reads) (L :: rest))
      by (constructor; assumption).
    split; [reflexivity|]. split; [exact Wall|].
    destruct (parallel_units _ _ Wall HL) as (E1 & E2 & G).
    pose proof (index_reads_units (combine (read :: reads) (L :: rest)) G) as R.
    rewrite <- key_counts_sum_all_keys, E1, E2 in R by exact G.
    exact (R Ht).
Qed.

Lemma generate_then_index_witness :
  exists reads,
    generateStrings (fun k => 40000 + Z.of_nat k) [80; 120] 0 = Some reads /\
    Forall2 well_formed reads [80; 120] /\
    index_reads reads [80; 120] = Some (all_keys (combine reads [80; 120])).
Proof.
  apply (generate_then_index (fun k => 40000 + Z.of_nat k) [80; 120] 0).
  - repeat constructor; vm_compute; discriminate.
  - vm_compute. reflexivity.
Defined.

(** *** Truncated output *)

(** With fewer characters in the words than the loop is asked to
    consume, the loop stores the keys of the windows that fit and
    breaks, as long as the vector has at most 255 words. *)
Lemma slide_truncates (seq : SequenceT) (n : nat) :
  forall p j key block last_block last_block_pos,
  N_K <= p ->
  last_block = p / N_PACKED_CHARS ->
  last_block_pos = p mod N_PACKED_CHARS ->
  block = nth (Z.to_nat last_block) seq 0 ->
  key = window_key seq (p - N_K) ->
  p < N_PACKED_CHARS * Z.of_nat (length seq) ->
  Z.of_nat (length seq) <= 255 ->
  N_PACKED_CHARS * Z.of_nat (length seq) - p <= Z.of_nat n ->
  writes (fst (slide seq n j key block last_block last_block_pos)) =
    map (window_key seq)
        (zseq (p - N_K + 1)
              (Z.to_nat (N_PACKED_CHARS * Z.of_nat (length seq) - p))) /\
  snd (slide seq n j key block last_block last_block_pos) = Some Broke /\
  reports (fst (slide seq n j key block last_block last_block_pos)) = [].
Proof.
  induction n as [|n IH];
    intros p j key block lb pos Hp Hlb Hpos Hblock Hkey Hsz H8 Hn;
    [constants_to_numbers; lia|].
  rewrite slide_succ. cbv zeta. cbn [fst snd writes reports].
  subst key block lb pos. rewrite next_key_window by assumption.
  unfold advance. constants_to_numbers.
  assert (Hp0 : 0 <= p) by lia.
  pose proof (Z.mod_pos_bound p 5 eq_refl) as Hm.
  assert (Hd : 0 <= p / 5) by (apply Z.div_pos; lia).
  assert (Hd' : p / 5 < Z.of_nat (length seq))
    by (apply Z.div_lt_upper_bound; lia).
  rewrite (u8_small (p mod 5 + 1)) by lia.
  set (avail := 5 * Z.of_nat (length seq) - p) in *.
  assert (Ha : Z.to_nat avail = S (Z.to_nat (avail - 1))) by lia.
  rewrite Ha. cbn [zseq map].
  destruct (cursor_next p Hp0) as [(E4 & Ed & Em)|(E4 & Ed & Em)].
  - rewrite E4. change ((4 + 1) mod 5 =? 0) with true. cbv iota.
    rewrite <- Ed. rewrite (u8_small ((p + 1) / 5)) by lia.
    destruct (Z.gtb_spec ((p + 1) / 5) (Z.of_nat (length seq))); [lia|].
    destruct (Z.eqb_spec ((p + 1) / 5) (Z.of_nat (length seq))) as [Ee|Ne].
    + assert (avail = 1).
      { unfold avail. Z.div_mod_to_equations. lia. }
      replace (Z.to_nat (avail - 1)) with 0%nat by lia.
      repeat split; reflexivity.
    + assert (Hlt : p + 1 < 5 * Z.of_nat (length seq)).
      { Z.div_mod_to_equations. lia. }
      rewrite index_some by lia. rewrite bind_some.
      cbn [fst snd reads writes reports app].
      destruct (IH (p + 1) (u16 (j + 1)) (window_key seq (p - 21 + 1))
                   (nth (Z.to_nat ((p + 1) / 5)) seq 0) ((p + 1) / 5) 0)
        as (I1 & I2 & I3); try reflexivity; try lia.
      { f_equal; lia. }
      rewrite I1, I2, I3.
      replace (p + 1 - 21 + 1) with (p - 21 + 1 + 1) by lia.
      replace (5 * Z.of_nat (length seq) - (p + 1)) with (avail - 1)
        by (unfold avail; lia).
      repeat split; reflexivity.
  - assert (Hne : (p mod 5 + 1) mod 5 <> 0).
    { rewrite Z.mod_small by lia. lia. }
    apply Z.eqb_neq in Hne. rewrite Hne.
    assert (Hlt : p + 1 < 5 * Z.of_nat (length seq)).
    { Z.div_mod_to_equations. lia. }
    destruct (IH (p + 1) (u16 (j + 1)) (window_key seq (p - 21 + 1))
                 (nth (Z.to_nat (p / 5)) seq 0) (p / 5) (p mod 5 + 1))
      as (I1 & I2 & I3); try lia.
    { f_equal; lia. }
    rewrite I1, I2, I3.
    replace (p + 1 - 21 + 1) with (p - 21 + 1 + 1) by lia.
    replace (5 * Z.of_nat (length seq) - (p + 1)) with (avail - 1)
      by (unfold avail; lia).
    repeat split; reflexivity.
Qed.

(** When [key_count] asks for more keys than the words of the vector
    hold ([N_PACKED_CHARS * seq.size() - N_K + 1] windows), and the
    vector has 5 to 255 words without padding bits, [computeKeys<SCALAR>]
    stores exactly the keys of the windows the words hold, in order,
    stops by [break] and logs nothing. *)
Theorem computeKeys_truncates (seq : SequenceT) (key_count : Z) :
  Forall (fun w => 0 <= w <= PADDING_MASK) seq ->
  DIV < Z.of_nat (length seq) <= 255 ->
  N_PACKED_CHARS * Z.of_nat (length seq) - N_K + 1 <= key_count ->
  written (computeKeys seq key_count) =
    map (window_key seq)
        (positions (N_PACKED_CHARS * Z.of_nat (length seq) - N_K + 1)) /\
  snd (computeKeys seq key_count) = Some Broke /\
  reports (fst (computeKeys seq key_count)) = [].
Proof.
  intros Hw [H5 H255] Hk.
  destruct (five_words seq H5) as (w0 & w1 & w2 & w3 & w4 & rest & E).
  assert (Hseed : seed_of w0 w1 w2 w3 w4 = window_key seq 0).
  { subst seq.
    inversion Hw as [|? ? B0 Hw1]; subst.
    inversion Hw1 as [|? ? B1 Hw2]; subst.
    inversion Hw2 as [|? ? B2 Hw3]; subst.
    inversion Hw3 as [|? ? B3 Hw4]; subst.
    apply seed_of_window; assumption. }
  pose proof (slide_truncates seq (Z.to_nat (key_count - 1)) 21 1
                (seed_of w0 w1 w2 w3 w4) w4 4 1) as S.
  constants_to_numbers.
  specialize (S ltac:(lia) eq_refl eq_refl).
  rewrite E in S at 1.
  specialize (S eq_refl Hseed ltac:(lia) ltac:(lia) ltac:(lia)).
  destruct S as (S1 & S2 & S3).
  change (21 - 21 + 1) with 1 in S1.
  pose proof (computeKeys_five w0 w1 w2 w3 w4 rest key_count) as Er.
  cbv zeta in Er. rewrite <- E in Er.
  unfold written. rewrite Er.
  cbn [fst snd]. rewrite writes_app, reports_app.
  cbn [writes reports app map].
  rewrite S1, S2, S3, Hseed.
  rewrite positions_succ by lia.
  replace (5 * Z.of_nat (length seq) - 21 + 1 - 1)
    with (5 * Z.of_nat (length seq) - 21) by lia.
  repeat split; reflexivity.
Qed.

Lemma computeKeys_truncates_witness :
  written (computeKeys sample_sequence 9) =
    map (window_key sample_sequence)
        (positions (N_PACKED_CHARS * Z.of_nat (length sample_sequence) - N_K + 1)) /\
  snd (computeKeys sample_sequence 9) = Some Broke /\
  reports (fst (computeKeys sample_sequence 9)) = [].
Proof.
  apply (computeKeys_truncates sample_sequence 9).
  - repeat constructor; vm_compute; discriminate.
  - vm_compute. split; [reflexivity|discriminate].
  - vm_compute. discriminate.
Defined.

(** *** How many keys the loop stores *)

(** The loop on a vector of at most 255 words, from the iteration that
    consumes character [p]: it stores one key per iteration until the
    iterations or the characters of the words run out, and it leaves by
    [break] exactly when the characters run out first or together. *)
Lemma slide_count (seq : SequenceT) (n : nat) :
  forall p j key block last_block last_block_pos,
  0 <= p ->
  last_block = p / N_PACKED_CHARS ->
  last_block_pos = p mod N_PACKED_CHARS ->
  p < N_PACKED_CHARS * Z.of_nat (length seq) ->
  Z.of_nat (length seq) <= 255 ->
  snd (slide seq n j key block last_block last_block_pos) =
    Some (if N_PACKED_CHARS * Z.of_nat (length seq) - p <=? Z.of_nat n
          then Broke else Finished) /\
  Z.of_nat (length (writes (fst (slide seq n j key block last_block last_block_pos))))
    = Z.min (Z.of_nat n) (N_PACKED_CHARS * Z.of_nat (length seq) - p).
Proof.
  constants_to_numbers.
  induction n as [|n IH]; intros p j key block lb pos Hp Hlb Hpos Hsz H8.
  - cbn [slide ret fst snd writes length].
    destruct (Z.leb_spec (5 * Z.of_nat (length seq) - p) (Z.of_nat 0));
      [lia|]. split; [reflexivity|lia].
  - rewrite slide_succ. cbv zeta. cbn [fst snd writes length].
    subst lb pos. unfold advance. constants_to_numbers.
    pose proof (Z.mod_pos_bound p 5 eq_refl) as Hm.
    assert (Hd : 0 <= p / 5) by (apply Z.div_pos; lia).
    assert (Hd' : p / 5 < Z.of_nat (length seq))
      by (apply Z.div_lt_upper_bound; lia).
    rewrite (u8_small (p mod 5 + 1)) by lia.
    destruct (cursor_next p Hp) as [(E4 & Ed & Em)|(E4 & Ed & Em)].
    + rewrite E4. change ((4 + 1) mod 5 =? 0) with true. cbv iota.
      rewrite <- Ed. rewrite (u8_small ((p + 1) / 5)) by lia.
      destruct (Z.gtb_spec ((p + 1) / 5) (Z.of_nat (length seq))); [lia|].
      destruct (Z.eqb_spec ((p + 1) / 5) (Z.of_nat (length seq))) as [Ee|Ne].
      * assert (Ea : 5 * Z.of_nat (length seq) - p = 1).
        { Z.div_mod_to_equations. lia. }
        rewrite Ea. cbn [ret fst snd writes length].
        destruct (Z.leb_spec 1 (Z.of_nat (S n))); [|lia].
        split; [reflexivity|lia].
      * assert (Hlt : p + 1 < 5 * Z.of_nat (length seq)).
        { Z.div_mod_to_equations. lia. }
        rewrite index_some by lia. rewrite bind_some.
        cbn [fst snd reads writes app].
        destruct (IH (p + 1) (u16 (j + 1)) (next_key key block 4)
                     (nth (Z.to_nat ((p + 1) / 5)) seq 0) ((p + 1) / 5) 0)
          as (I1 & I2); try lia.
        split; [rewrite I1|lia].
        destruct (Z.leb_spec (5 * Z.of_nat (length seq) - (p + 1)) (Z.of_nat n));
          destruct (Z.leb_spec (5 * Z.of_nat (length seq) - p) (Z.of_nat (S n)));
          try lia; reflexivity.
    + assert (Hne : (p mod 5 + 1) mod 5 <> 0).
      { rewrite Z.mod_small by lia. lia. }
      apply Z.eqb_neq in Hne. rewrite Hne.
      assert (Hlt : p + 1 < 5 * Z.of_nat (length seq)).
      { Z.div_mod_to_equations. lia. }
      destruct (IH (p + 1) (u16 (j + 1)) (next_key key block (p mod 5))
                   block (p / 5) (p mod 5 + 1))
        as (I1 & I2); try lia.
      split; [rewrite I1|lia].
      destruct (Z.leb_spec (5 * Z.of_nat (length seq) - (p + 1)) (Z.of_nat n));
        destruct (Z.leb_spec (5 * Z.of_nat (length seq) - p) (Z.of_nat (S n)));
        try lia; reflexivity.
Qed.

(** C4, as the code has it. When the vector holds the five seed words
    ([seq.size() > DIV]), [computeKeys<SCALAR>] reads [seq] only at indices
    below [seq.size()], for every [key_count]: a run is never cut short by
    a read outside the vector, and nothing is logged. On a vector of 5 to
    255 words, when [key_count] is at least the number of windows the
    words hold ([N_PACKED_CHARS * seq.size() - N_K + 1]), the loop stops
    by [break] when the word cursor reaches [seq.size()]: exactly that
    many keys are stored and the remaining window positions stay
    unwritten; when [key_count] is smaller the loop runs to its end and
    [max 1 key_count] keys are stored. *)
Theorem computeKeys_reads_in_bounds (seq : SequenceT) (key_count : Z) :
  DIV < Z.of_nat (length seq) ->
  Forall (fun i => 0 <= i < Z.of_nat (length seq))
         (indices_read (computeKeys seq key_count)) /\
  snd (computeKeys seq key_count) <> None /\
  reports (fst (computeKeys seq key_count)) = [] /\
  Z.of_nat (length (written (computeKeys seq key_count)))
     <= Z.max 1 key_count /\
  (snd (computeKeys seq key_count) = Some Finished ->
   Z.of_nat (length (written (computeKeys seq key_count)))
     = Z.max 1 key_count) /\
  (Z.of_nat (length seq) <= 255 ->
   N_PACKED_CHARS * Z.of_nat (length seq) - N_K + 1 <= key_count ->
   snd (computeKeys seq key_count) = Some Broke /\
   Z.of_nat (length (written (computeKeys seq key_count)))
     = N_PACKED_CHARS * Z.of_nat (length seq) - N_K + 1) /\
  (Z.of_nat (length seq) <= 255 ->
   key_count < N_PACKED_CHARS * Z.of_nat (length seq) - N_K + 1 ->
   snd (computeKeys seq key_count) = Some Finished /\
   Z.of_nat (length (written (computeKeys seq key_count)))
     = Z.max 1 key_count).
Proof.
  intros H.
  destruct (computeKeys_contained seq key_count H) as (C1 & C2 & C3 & C4 & C5).
  unfold indices_read, written.
  split; [exact C2|]. split; [exact C1|]. split; [exact C3|].
  split; [lia|]. split; [intros F; rewrite (C5 F); lia|].
  destruct (five_words seq H) as (w0 & w1 & w2 & w3 & w4 & rest & E).
  pose proof (computeKeys_five w0 w1 w2 w3 w4 rest key_count) as Er.
  cbv zeta in Er. rewrite <- E in Er.
  assert (S : Z.of_nat (length seq) <= 255 ->
     snd (computeKeys seq key_count) =
       Some (if 5 * Z.of_nat (length seq) - 21 <=? Z.of_nat (Z.to_nat (key_count - 1))
             then Broke else Finished) /\
     Z.of_nat (length (writes (fst (computeKeys seq key_count)))) =
       1 + Z.min (Z.of_nat (Z.to_nat (key_count - 1)))
                 (5 * Z.of_nat (length seq) - 21)).
  { intros H255. change DIV with 4 in H.
    destruct (slide_count seq (Z.to_nat (key_count - 1)) 21 1
                (seed_of w0 w1 w2 w3 w4) w4 4 1) as (S1 & S2);
      try reflexivity; try (constants_to_numbers; lia).
    constants_to_numbers.
    rewrite Er. cbn [fst snd]. rewrite writes_app.
    cbn [writes app length]. rewrite S1. split; [reflexivity|].
    rewrite Nat2Z.inj_succ, S2. lia. }
  constants_to_numbers. change DIV with 4 in H.
  split; intros H255 Hk; destruct (S H255) as (S1 & S2); rewrite S1, S2.
  - destruct (Z.leb_spec (5 * Z.of_nat (length seq) - 21)
                         (Z.of_nat (Z.to_nat (key_count - 1)))); [|lia].
    split; [reflexivity|lia].
  - destruct (Z.leb_spec (5 * Z.of_nat (length seq) - 21)
                         (Z.of_nat (Z.to_nat (key_count - 1)))); [lia|].
    split; [reflexivity|lia].
Qed.

Lemma computeKeys_reads_in_bounds_witness :
  Forall (fun i => 0 <= i < Z.of_nat (length sample_sequence))
         (indices_read (computeKeys sample_sequence 9)) /\
  snd (computeKeys sample_sequence 9) = Some Broke /\
  reports (fst (computeKeys sample_sequence 9)) = [] /\
  Z.of_nat (length (written (computeKeys sample_sequence 9))) = 5.
Proof.
  assert (H : DIV < Z.of_nat (length sample_sequence))
    by (vm_compute; reflexivity).
  destruct (computeKeys_reads_in_bounds sample_sequence 9 H)
    as (R & _ & L & _ & _ & B & _).
  destruct B as (B1 & B2); [vm_compute; discriminate..|].
  split; [exact R|]. split; [exact B1|]. split; [exact L|exact B2].
Defined.

End Indexing.
